(** * DeepGallery: the media collector of the Deep Gallery gramplet

    A shallow embedding of [deepgallery.py] (class [DeepGallery]) and the
    properties of its collection run [main]: which media handles are
    gathered for the active person, in which order they are shown, and how
    lookup failures of the database layer surface.

    The host application (Gramps 5.1: database, Gtk widgets, gramplet
    scheduler) is not part of the repository.  It is represented by
    - a read-only database [Db], one lookup table per object kind, where a
      handle that is not in its table makes [get_*_from_handle] raise
      [HandleError];
    - the gramplet object's attributes [content_box], [image_list] and
      [all_media] as an explicit state [Gramplet], threaded through a
      state-and-exception monad [M] in which the state survives a raise, as
      the attributes of a Python object do. *)

From Stdlib Require Import List String Ascii Bool Arith Lia.
From Stdlib Require Import Sorted Permutation OrderedTypeEx.
Import ListNotations.

Local Open Scope string_scope.
Local Open Scope list_scope.

(** ** Gramps objects, as far as the gramplet reads them *)

Definition handle := string.

(** [MediaRef] and [EventRef]: references carrying the handle of their
    target, read with [get_reference_handle]. *)
Record MediaRef := mkMediaRef { media_ref : handle }.
Record EventRef := mkEventRef { event_ref : handle }.

Record Media := mkMedia {
  media_handle : handle;
  media_desc : string;
  media_path : string;
  media_mime : string
}.

Record Citation := mkCitation { citation_media_list : list MediaRef }.

Record Event := mkEvent { event_citation_list : list handle }.

Record Name := mkName { name_citation_list : list handle }.

Record Family := mkFamily {
  family_media_list : list MediaRef;
  family_event_ref_list : list EventRef
}.

Record Person := mkPerson {
  person_media_list : list MediaRef;
  person_citation_list : list handle;
  person_primary_name : Name;
  person_alternate_names : list Name;
  person_event_ref_list : list EventRef;
  person_family_list : list handle
}.

(** The accessor methods the gramplet calls on whatever object it is handed
    (duck typing in the source): one class per capability. *)
Class RefBase (T : Type) := { get_reference_handle : T -> handle }.
Class MediaBase (T : Type) := { get_media_list : T -> list MediaRef }.
Class CitationBase (T : Type) := { get_citation_list : T -> list handle }.
Class EventRefBase (T : Type) := { get_event_ref_list : T -> list EventRef }.

#[export] Instance MediaRef_ref : RefBase MediaRef := {| get_reference_handle := media_ref |}.
#[export] Instance EventRef_ref : RefBase EventRef := {| get_reference_handle := event_ref |}.

#[export] Instance Person_media : MediaBase Person := {| get_media_list := person_media_list |}.
#[export] Instance Family_media : MediaBase Family := {| get_media_list := family_media_list |}.
#[export] Instance Citation_media : MediaBase Citation := {| get_media_list := citation_media_list |}.

#[export] Instance Person_citations : CitationBase Person := {| get_citation_list := person_citation_list |}.
#[export] Instance Name_citations : CitationBase Name := {| get_citation_list := name_citation_list |}.
#[export] Instance Event_citations : CitationBase Event := {| get_citation_list := event_citation_list |}.

#[export] Instance Person_events : EventRefBase Person := {| get_event_ref_list := person_event_ref_list |}.
#[export] Instance Family_events : EventRefBase Family := {| get_event_ref_list := family_event_ref_list |}.

Definition get_description (m : Media) : string := media_desc m.
Definition get_handle (m : Media) : handle := media_handle m.
Definition get_primary_name (p : Person) : Name := person_primary_name p.
Definition get_alternate_names (p : Person) : list Name := person_alternate_names p.
Definition get_family_handle_list (p : Person) : list handle := person_family_list p.

(** ** The database layer *)

Inductive ObjKind := PersonK | FamilyK | EventK | CitationK | MediaK.

Record Db := mkDb {
  person_tbl : handle -> option Person;
  family_tbl : handle -> option Family;
  event_tbl : handle -> option Event;
  citation_tbl : handle -> option Citation;
  media_tbl : handle -> option Media
}.

(** ** The gramplet object *)

(** [ImageBox(dbstate, uistate, media)]: the widget of one image; of its
    construction only the media object and the text of the description label
    are kept. *)
Record ImageBox := mkImageBox {
  image_media : Media;
  image_label : string
}.

Definition new_ImageBox (media : Media) : ImageBox :=
  {| image_media := media; image_label := get_description media |}.

(** A Python [dict] from media handle to description.  Since iteration
    order of a dict is insertion order, it is an association list, oldest
    key first. *)
Definition dict := list (handle * string).

Definition keys (d : dict) : list handle := map fst d.

(** [key in d] *)
Definition dict_contains (k : handle) (d : dict) : bool :=
  existsb (fun e => fst e =? k) d.

(** [d[key] = value]: an existing key keeps its position, a new key goes
    last. *)
Fixpoint dict_setitem (k : handle) (v : string) (d : dict) : dict :=
  match d with
  | [] => [(k, v)]
  | (k', v') :: d' =>
      if k' =? k then (k', v) :: d' else (k', v') :: dict_setitem k v d'
  end.

(** [list(d.items())] *)
Definition dict_items (d : dict) : list (handle * string) := d.

(** The attributes of [self].  [content_box] is the list of children of
    the Gtk box, in packing order; [all_media] is [None] as long as the
    attribute has not been assigned ([init] does not create it). *)
Record Gramplet := mkGramplet {
  content_box : list ImageBox;
  image_list : list ImageBox;
  all_media : option dict
}.

Inductive exn :=
| HandleError (kind : ObjKind) (h : handle)
| AttributeError (name : string).

(** ** State and exception monad *)

Definition M (A : Type) : Type := Gramplet -> Gramplet * (exn + A).

Definition ret {A} (a : A) : M A := fun s => (s, inr a).

Definition raise {A} (e : exn) : M A := fun s => (s, inl e).

Definition bind {A B} (c : M A) (k : A -> M B) : M B :=
  fun s =>
    match c s with
    | (s', inr a) => k a s'
    | (s', inl e) => (s', inl e)
    end.

Declare Scope gramplet_scope.
Delimit Scope gramplet_scope with gramplet.
Notation "x <- c1 ;; c2" := (bind c1 (fun x => c2))
  (at level 61, c1 at next level, right associativity) : gramplet_scope.
Notation "c1 ;; c2" := (bind c1 (fun _ => c2))
  (at level 61, right associativity) : gramplet_scope.
Local Open Scope gramplet_scope.

(** [for x in xs: body(x)] *)
Fixpoint for_ {A} (xs : list A) (body : A -> M unit) : M unit :=
  match xs with
  | [] => ret tt
  | x :: xs' => body x ;; for_ xs' body
  end.

Definition lookup {A} (kind : ObjKind) (tbl : handle -> option A) (h : handle) : M A :=
  match tbl h with
  | Some x => ret x
  | None => raise (HandleError kind h)
  end.

Definition get_person_from_handle (db : Db) := lookup PersonK (person_tbl db).
Definition get_family_from_handle (db : Db) := lookup FamilyK (family_tbl db).
Definition get_event_from_handle (db : Db) := lookup EventK (event_tbl db).
Definition get_citation_from_handle (db : Db) := lookup CitationK (citation_tbl db).
Definition get_media_from_handle (db : Db) := lookup MediaK (media_tbl db).

(** Reading and assigning the attributes of [self]. *)
Definition get_image_list : M (list ImageBox) := fun s => (s, inr (image_list s)).

Definition set_image_list (l : list ImageBox) : M unit :=
  fun s => ({| content_box := content_box s; image_list := l;
               all_media := all_media s |}, inr tt).

Definition get_all_media : M dict :=
  fun s =>
    match all_media s with
    | Some d => (s, inr d)
    | None => (s, inl (AttributeError "all_media"))
    end.

Definition set_all_media (d : dict) : M unit :=
  fun s => ({| content_box := content_box s; image_list := image_list s;
               all_media := Some d |}, inr tt).

(** ** Gtk box operations *)

Definition ImageBox_eq_dec (a b : ImageBox) : {a = b} + {a <> b}.
Proof. repeat decide equality. Defined.

(** [Gtk.Container.remove(widget)] takes one child out of the box.  Widgets
    are compared by value here; the child taken out is the first equal one. *)
Fixpoint remove_child (w : ImageBox) (children : list ImageBox) : list ImageBox :=
  match children with
  | [] => []
  | c :: cs => if ImageBox_eq_dec w c then cs else c :: remove_child w cs
  end.

Definition content_box_remove (w : ImageBox) : M unit :=
  fun s => ({| content_box := remove_child w (content_box s);
               image_list := image_list s; all_media := all_media s |}, inr tt).

(** [Gtk.Box.pack_start]: the child goes after those already packed. *)
Definition content_box_pack_start (w : ImageBox) : M unit :=
  fun s => ({| content_box := content_box s ++ [w];
               image_list := image_list s; all_media := all_media s |}, inr tt).

Definition content_box_show_all : M unit := ret tt.

(** ** [list.sort(key=...)] *)

(** Python's sort compares keys with [<] only and is stable.  It is
    rendered as a stable insertion sort; [stable_sort_unique] below shows
    that every stable sort returns this same list.  The keys are Python
    [str] values, compared code point by code point; they are strings of
    bytes here, and [String.ltb] on the UTF-8 bytes is that same order. *)
Fixpoint insert_by {A} (key : A -> string) (x : A) (l : list A) : list A :=
  match l with
  | [] => [x]
  | y :: l' => if (key y <? key x) then y :: insert_by key x l' else x :: l
  end.

Definition list_sort {A} (key : A -> string) (l : list A) : list A :=
  fold_right (insert_by key) [] l.

(** ** The methods of [DeepGallery] *)

Definition init : Gramplet :=
  {| content_box := []; image_list := []; all_media := None |}.

Definition add_image (db : Db) (media_handle : handle) : M unit :=
  media <- get_media_from_handle db media_handle ;;
  let image := new_ImageBox media in
  content_box_pack_start image ;;
  l <- get_image_list ;;
  set_image_list (l ++ [image]).

Definition clear_images : M unit :=
  l <- get_image_list ;;
  for_ l (fun image => content_box_remove image) ;;
  set_image_list [].

Definition process_media {T} `{MediaBase T} (db : Db) (gobj : T) : M unit :=
  for_ (get_media_list gobj) (fun media_ref =>
    let media_handle := get_reference_handle media_ref in
    d <- get_all_media ;;
    if negb (dict_contains media_handle d) then
      media <- get_media_from_handle db media_handle ;;
      d <- get_all_media ;;
      set_all_media (dict_setitem media_handle (get_description media) d)
    else ret tt).

Definition process_citations {T} `{CitationBase T} (db : Db) (gobj : T) : M unit :=
  for_ (get_citation_list gobj) (fun cit_handle =>
    cit <- get_citation_from_handle db cit_handle ;;
    process_media db cit).

Definition process_events {T} `{EventRefBase T} (db : Db) (gobj : T) : M unit :=
  for_ (get_event_ref_list gobj) (fun event_ref =>
    let event_handle := get_reference_handle event_ref in
    event <- get_event_from_handle db event_handle ;;
    process_citations db event).

(** [self.get_active('Person')] is the argument [active_handle]: the handle
    of the active person, or [None].  [not active_handle] holds of [None]
    and of the empty string. *)
Definition main (db : Db) (active_handle : option handle) : M unit :=
  clear_images ;;
  match active_handle with
  | None => ret tt
  | Some active_handle =>
    if active_handle =? "" then ret tt else
    active <- get_person_from_handle db active_handle ;;
    set_all_media [] ;;
    process_media db active ;;
    process_citations db active ;;
    process_citations db (get_primary_name active) ;;
    for_ (get_alternate_names active) (fun name =>
      process_citations db name) ;;
    process_events db active ;;
    for_ (get_family_handle_list active) (fun family_handle =>
      family <- get_family_from_handle db family_handle ;;
      process_media db family ;;
      process_events db family) ;;
    d <- get_all_media ;;
    let media_list := list_sort snd (dict_items d) in
    for_ media_list (fun media => add_image db (fst media)) ;;
    content_box_show_all
  end.

(** ** The collection rules taken one by one *)

(** The six traversal steps of [main], in the numbering of the design
    document, so that runs which apply them in another order can be
    compared with [main]. *)
Inductive Rule :=
| PersonMedia
| PersonCitations
| PrimaryNameCitations
| AlternateNameCitations
| PersonEvents
| Families.

Definition apply_rule (db : Db) (active : Person) (r : Rule) : M unit :=
  match r with
  | PersonMedia => process_media db active
  | PersonCitations => process_citations db active
  | PrimaryNameCitations => process_citations db (get_primary_name active)
  | AlternateNameCitations =>
      for_ (get_alternate_names active) (fun name =>
        process_citations db name)
  | PersonEvents => process_events db active
  | Families =>
      for_ (get_family_handle_list active) (fun family_handle =>
        family <- get_family_from_handle db family_handle ;;
        process_media db family ;;
        process_events db family)
  end.

Definition source_order : list Rule :=
  [PersonMedia; PersonCitations; PrimaryNameCitations;
   AlternateNameCitations; PersonEvents; Families].

(** [main] with its traversal steps applied in the order [order];
    [main_in_source_order] shows that [source_order] gives [main] back. *)
Definition main_in_order (db : Db) (order : list Rule)
    (active_handle : option handle) : M unit :=
  clear_images ;;
  match active_handle with
  | None => ret tt
  | Some active_handle =>
    if active_handle =? "" then ret tt else
    active <- get_person_from_handle db active_handle ;;
    set_all_media [] ;;
    for_ order (apply_rule db active) ;;
    d <- get_all_media ;;
    let media_list := list_sort snd (dict_items d) in
    for_ media_list (fun media => add_image db (fst media)) ;;
    content_box_show_all
  end.

(** ** What a run is expected to gather *)

Section Sources.
Variable db : Db.

Definition media_handles {T} `{MediaBase T} (gobj : T) : list handle :=
  map get_reference_handle (get_media_list gobj).

(** media directly attached to [gobj] *)
Definition direct_media {T} `{MediaBase T} (gobj : T) (h : handle) : Prop :=
  In h (media_handles gobj).

(** media attached to a citation of [gobj] *)
Definition cited_media {T} `{CitationBase T} (gobj : T) (h : handle) : Prop :=
  exists ch cit,
    In ch (get_citation_list gobj) /\ citation_tbl db ch = Some cit /\
    direct_media cit h.

(** media attached to a citation of an event referenced by [gobj] *)
Definition event_cited_media {T} `{EventRefBase T} (gobj : T) (h : handle) : Prop :=
  exists er ev,
    In er (get_event_ref_list gobj) /\
    event_tbl db (get_reference_handle er) = Some ev /\
    cited_media ev h.

(** media of a family the person belongs to: attached to the family, or
    to a citation of an event the family references *)
Definition family_media (p : Person) (h : handle) : Prop :=
  exists fh fam,
    In fh (get_family_handle_list p) /\ family_tbl db fh = Some fam /\
    (direct_media fam h \/ event_cited_media fam h).

(** The union of the sources the design document lists for a person. *)
Definition collected_sources (p : Person) (h : handle) : Prop :=
  direct_media p h \/
  cited_media p h \/
  cited_media (get_primary_name p) h \/
  (exists name, In name (get_alternate_names p) /\ cited_media name h) \/
  event_cited_media p h \/
  family_media p h.

(** The sources of one rule. *)
Definition rule_sources (p : Person) (r : Rule) (h : handle) : Prop :=
  match r with
  | PersonMedia => direct_media p h
  | PersonCitations => cited_media p h
  | PrimaryNameCitations => cited_media (get_primary_name p) h
  | AlternateNameCitations =>
      exists name, In name (get_alternate_names p) /\ cited_media name h
  | PersonEvents => event_cited_media p h
  | Families => family_media p h
  end.

(** ** Dangling references met by the traversal *)

Definition unresolved (k : ObjKind) (h : handle) : Prop :=
  match k with
  | PersonK => person_tbl db h = None
  | FamilyK => family_tbl db h = None
  | EventK => event_tbl db h = None
  | CitationK => citation_tbl db h = None
  | MediaK => media_tbl db h = None
  end.

(** a media reference of [gobj] whose handle is not in the database *)
Definition dangling_media {T} `{MediaBase T} (gobj : T)
    (k : ObjKind) (h : handle) : Prop :=
  k = MediaK /\ direct_media gobj h /\ media_tbl db h = None.

(** a citation of [gobj] that does not resolve, or a dangling media
    reference of one that does *)
Definition dangling_citations {T} `{CitationBase T} (gobj : T)
    (k : ObjKind) (h : handle) : Prop :=
  (k = CitationK /\ In h (get_citation_list gobj) /\ citation_tbl db h = None) \/
  (exists ch cit,
      In ch (get_citation_list gobj) /\ citation_tbl db ch = Some cit /\
      dangling_media cit k h).

Definition dangling_events {T} `{EventRefBase T} (gobj : T)
    (k : ObjKind) (h : handle) : Prop :=
  (k = EventK /\
   (exists er, In er (get_event_ref_list gobj) /\ get_reference_handle er = h) /\
   event_tbl db h = None) \/
  (exists er ev,
      In er (get_event_ref_list gobj) /\
      event_tbl db (get_reference_handle er) = Some ev /\
      dangling_citations ev k h).

Definition dangling_families (p : Person) (k : ObjKind) (h : handle) : Prop :=
  (k = FamilyK /\ In h (get_family_handle_list p) /\ family_tbl db h = None) \/
  (exists fh fam,
      In fh (get_family_handle_list p) /\ family_tbl db fh = Some fam /\
      (dangling_media fam k h \/ dangling_events fam k h)).

Definition rule_dangling (p : Person) (r : Rule) (k : ObjKind) (h : handle) : Prop :=
  match r with
  | PersonMedia => dangling_media p k h
  | PersonCitations => dangling_citations p k h
  | PrimaryNameCitations => dangling_citations (get_primary_name p) k h
  | AlternateNameCitations =>
      exists name, In name (get_alternate_names p) /\ dangling_citations name k h
  | PersonEvents => dangling_events p k h
  | Families => dangling_families p k h
  end.

(** A citation, event, family or media reference on one of the paths that
    [main] follows from the person [p] which does not resolve. *)
Definition dangling (p : Person) (k : ObjKind) (h : handle) : Prop :=
  exists r, rule_dangling p r k h.

End Sources.

(** ** Invariants of the state *)

Section Invariants.
Variable db : Db.

(** every description in the dict is the description of the media object
    its key resolves to *)
Definition described_by_db (d : dict) : Prop :=
  forall h dsc, In (h, dsc) d ->
    exists m, media_tbl db h = Some m /\ get_description m = dsc.

Definition dict_ok (d : dict) : Prop :=
  NoDup (keys d) /\ described_by_db d.

(** the image shown for a dict entry *)
Definition shows (entry : handle * string) (img : ImageBox) : Prop :=
  exists m, media_tbl db (fst entry) = Some m /\
            img = new_ImageBox m /\ image_label img = snd entry.

Definition with_all_media (s : Gramplet) (d : dict) : Gramplet :=
  {| content_box := content_box s; image_list := image_list s;
     all_media := Some d |}.

(** [c] only extends the dict, with handles from [src]; it fails exactly
    on a reference from [dang], and otherwise gathers all of [src]. *)
Definition collects (c : M unit) (src : handle -> Prop)
    (dang : ObjKind -> handle -> Prop) : Prop :=
  forall s d, all_media s = Some d -> dict_ok d ->
    exists ext,
      fst (c s) = with_all_media s (d ++ ext) /\
      dict_ok (d ++ ext) /\
      (forall h, In h (keys ext) -> src h) /\
      match snd (c s) with
      | inr _ =>
          (forall h, src h -> In h (keys (d ++ ext))) /\
          (forall k h, ~ dang k h)
      | inl e => exists k h, e = HandleError k h /\ dang k h
      end.
End Invariants.

(** [c] leaves the entries of the dict as they are and only appends
    entries for keys that are not in it yet, each with the description of
    the media object the key resolves to *)
Definition extends (db : Db) (c : M unit) : Prop :=
  forall s d, all_media s = Some d ->
    exists ext,
      fst (c s) = with_all_media s (d ++ ext) /\
      (forall k, In k (keys ext) -> ~ In k (keys d)) /\
      described_by_db db ext.

(** every media object is stored under its own handle *)
Definition handles_consistent (db : Db) : Prop :=
  forall k m, media_tbl db k = Some m -> get_handle m = k.

(** the box shows exactly the images the gramplet keeps track of *)
Definition gui_consistent (s : Gramplet) : Prop :=
  content_box s = image_list s.

Definition cleared (s : Gramplet) : Gramplet :=
  {| content_box := []; image_list := []; all_media := all_media s |}.

(** the handle is one that passes the test [if not active_handle] *)
Definition present (a : option handle) (h : handle) : Prop :=
  a = Some h /\ h <> "".

(** order by key: [x] is not after [y] *)
Definition key_le {A} (key : A -> string) (x y : A) : Prop :=
  (key y <? key x) = false.

(** the elements with key [k], in the order of the list *)
Definition with_key {A} (key : A -> string) (k : string) (l : list A) : list A :=
  filter (fun e => key e =? k) l.

(** the (identifier, description) pairs on display *)
Definition displayed (s : Gramplet) : list (handle * string) :=
  map (fun img => (get_handle (image_media img), image_label img)) (content_box s).

(** ** A sample database *)

Module Sample.
Definition mref (h : handle) : MediaRef := {| media_ref := h |}.
Definition eref (h : handle) : EventRef := {| event_ref := h |}.

Definition media (h : handle) (dsc : string) : Media :=
  {| media_handle := h; media_desc := dsc;
     media_path := h ++ ".jpg"; media_mime := "image/jpeg" |}.

Definition person_I1 : Person :=
  {| person_media_list := [mref "M1"];
     person_citation_list := ["C1"];
     person_primary_name := {| name_citation_list := [] |};
     person_alternate_names := [ {| name_citation_list := ["C2"] |} ];
     person_event_ref_list := [eref "E1"];
     person_family_list := ["F1"] |}.

(** a person with a family that is not in the database *)
Definition person_I2 : Person :=
  {| person_media_list := [mref "M2"];
     person_citation_list := [];
     person_primary_name := {| name_citation_list := [] |};
     person_alternate_names := [];
     person_event_ref_list := [];
     person_family_list := ["F9"] |}.

(** a person with nothing attached *)
Definition person_I3 : Person :=
  {| person_media_list := [];
     person_citation_list := [];
     person_primary_name := {| name_citation_list := [] |};
     person_alternate_names := [];
     person_event_ref_list := [];
     person_family_list := [] |}.

Definition db : Db :=
  {| person_tbl := fun h =>
       if h =? "I1" then Some person_I1
       else if h =? "I2" then Some person_I2
       else if h =? "I3" then Some person_I3
       else None;
     family_tbl := fun h =>
       if h =? "F1" then
         Some {| family_media_list := [mref "M1"; mref "M4"];
                 family_event_ref_list := [eref "E2"] |}
       else None;
     event_tbl := fun h =>
       if h =? "E1" then Some {| event_citation_list := ["C3"] |}
       else if h =? "E2" then Some {| event_citation_list := ["C1"] |}
       else None;
     citation_tbl := fun h =>
       if h =? "C1" then Some {| citation_media_list := [mref "M2"] |}
       else if h =? "C2" then Some {| citation_media_list := [mref "M1"] |}
       else if h =? "C3" then Some {| citation_media_list := [mref "M3"] |}
       else None;
     media_tbl := fun h =>
       if h =? "M1" then Some (media "M1" "Zebra")
       else if h =? "M2" then Some (media "M2" "Apple")
       else if h =? "M3" then Some (media "M3" "Mango")
       else if h =? "M4" then Some (media "M4" "Apple")
       else None |}.

Definition family_first : list Rule :=
  [Families; PersonMedia; PersonCitations; PrimaryNameCitations;
   AlternateNameCitations; PersonEvents].
End Sample.

(** ** Further notions on the collector *)

(** [c] leaves the box and the list of images as they are *)
Definition keeps_display {A} (c : M A) : Prop :=
  forall s, content_box (fst (c s)) = content_box s /\
            image_list (fst (c s)) = image_list s.

(** The gramplet after a series of runs, each on the database and for the
    active person of its time; a run that raises leaves the state it
    reached. *)
Fixpoint run_all (runs : list (Db * option handle)) (s : Gramplet) : Gramplet :=
  match runs with
  | [] => s
  | (db, a) :: rest => run_all rest (fst (main db a s))
  end.

(** two databases that differ at most in the media objects stored under
    handles outside [P] *)
Definition same_up_to_media (P : handle -> Prop) (db db' : Db) : Prop :=
  (forall h, person_tbl db h = person_tbl db' h) /\
  (forall h, family_tbl db h = family_tbl db' h) /\
  (forall h, event_tbl db h = event_tbl db' h) /\
  (forall h, citation_tbl db h = citation_tbl db' h) /\
  (forall h, P h -> media_tbl db h = media_tbl db' h).

(** ** The gallery as a function of the database *)

(** the handles of [hs] that are not in [seen], each once, in the order in
    which they first occur *)
Fixpoint first_new (seen hs : list handle) : list handle :=
  match hs with
  | [] => []
  | h :: hs' =>
      if existsb (fun k => k =? h) seen then first_new seen hs'
      else h :: first_new (seen ++ [h]) hs'
  end.

(** the media references met on the way through a list of citations, of
    event references, of families: in the order of the traversal, with
    repetitions *)
Definition citations_media (db : Db) (chs : list handle) : list handle :=
  flat_map (fun ch =>
    match citation_tbl db ch with
    | Some cit => media_handles cit
    | None => []
    end) chs.

Definition events_media (db : Db) (ers : list EventRef) : list handle :=
  flat_map (fun er =>
    match event_tbl db (get_reference_handle er) with
    | Some ev => citations_media db (get_citation_list ev)
    | None => []
    end) ers.

Definition families_media (db : Db) (fhs : list handle) : list handle :=
  flat_map (fun fh =>
    match family_tbl db fh with
    | Some fam =>
        media_handles fam ++ events_media db (get_event_ref_list fam)
    | None => []
    end) fhs.

Definition rule_handles (db : Db) (p : Person) (r : Rule) : list handle :=
  match r with
  | PersonMedia => media_handles p
  | PersonCitations => citations_media db (get_citation_list p)
  | PrimaryNameCitations =>
      citations_media db (get_citation_list (get_primary_name p))
  | AlternateNameCitations =>
      flat_map (fun name => citations_media db (get_citation_list name))
        (get_alternate_names p)
  | PersonEvents => events_media db (get_event_ref_list p)
  | Families => families_media db (get_family_handle_list p)
  end.

(** all media references in the order in which [main] comes to them *)
Definition traversal_handles (db : Db) (p : Person) : list handle :=
  flat_map (rule_handles db p) source_order.

Definition description_of (db : Db) (h : handle) : string :=
  match media_tbl db h with
  | Some m => get_description m
  | None => ""
  end.

(** the (identifier, description) pairs of the gallery of a person *)
Definition gallery (db : Db) (p : Person) : list (handle * string) :=
  list_sort snd
    (map (fun h => (h, description_of db h))
       (first_new [] (traversal_handles db p))).

(** when [c] returns, the keys of the dict have grown by the new handles
    of [hs], in order *)
Definition gathers (c : M unit) (hs : list handle) : Prop :=
  forall s d s1, all_media s = Some d -> c s = (s1, inr tt) ->
    exists d1, all_media s1 = Some d1 /\
               keys d1 = keys d ++ first_new (keys d) hs.

(** ** The image widget: [DeepPhoto] *)

Inductive ThumbSize := SIZE_NORMAL | SIZE_LARGE.

Inductive EventType :=
| BUTTON_PRESS
| DOUBLE_BUTTON_PRESS
| TRIPLE_BUTTON_PRESS
| BUTTON_RELEASE.

(** a [Gdk.EventButton], as far as the handler reads it *)
Record ButtonEvent := mkButtonEvent {
  event_type : EventType;
  event_button : nat;
  event_time : nat
}.

(** What the host supplies to the widget: the type of pixbufs, the path
    functions, the test for a context-menu click, and the thumbnailer.  The
    thumbnail of a file may differ from one request to the next; the first
    argument of [get_thumbnail_image] is the number of effects before the
    request.  Its rectangle argument, always [None] in the source, is left
    out.  A pixbuf object counts as true in a test, so that
    [not self.large_pixbuf] holds of [None] only. *)
Record Toolkit := mkToolkit {
  Pixbuf : Type;
  media_path_full : Db -> string -> string;
  path_split : string -> string * string;
  get_thumbnail_image : nat -> string -> string -> ThumbSize -> Pixbuf;
  is_right_click : ButtonEvent -> bool
}.

Variant UIState := the_uistate.

Definition MSG_VIEW := "View".
Definition MSG_OPEN_CONTAINING_FOLDER := "Open Containing Folder".
Definition MSG_EDIT := "Edit".
Definition MSG_MAKE_ACTIVE_MEDIA := "Make Active Media".

(** what a menu item does when it is activated *)
Inductive MenuAction :=
| open_file_with_default_application (path : string)
| EditMedia (media : Media)
| set_active (h : handle) (nav_type : string).

Inductive MenuEntry :=
| MenuItem (label : string) (action : MenuAction)
| SeparatorMenuItem.

(** what the widget asks of the host, in order; what the host does with a
    request (the editor window, the menu on screen) is not followed *)
Inductive Effect :=
| thumbnail_request (path mime : string) (size : ThumbSize)
| open_editor (media : Media)
| menu_popup (menu : list MenuEntry) (button time : nat).

(** The attributes of a [DeepPhoto]; [photo] is the pixbuf its [Gtk.Image]
    shows. *)
Record DeepPhoto (tk : Toolkit) := mkDeepPhoto {
  photo_uistate : option UIState;
  photo_media : Media;
  photo_handle : handle;
  full_path : string;
  folder : string;
  mime_type : string;
  normal_pixbuf : Pixbuf tk;
  large_pixbuf : option (Pixbuf tk);
  photo : option (Pixbuf tk)
}.
Arguments photo_uistate {tk}.
Arguments photo_media {tk}.
Arguments photo_handle {tk}.
Arguments full_path {tk}.
Arguments folder {tk}.
Arguments mime_type {tk}.
Arguments normal_pixbuf {tk}.
Arguments large_pixbuf {tk}.
Arguments photo {tk}.

(** [DeepPhoto.__init__] *)
Definition new_DeepPhoto (tk : Toolkit) (db : Db) (uistate : option UIState)
    (media : Media) (log : list Effect) : list Effect * DeepPhoto tk :=
  let full_path := media_path_full tk db (media_path media) in
  let mime_type := media_mime media in
  let normal_pixbuf :=
    get_thumbnail_image tk (List.length log) full_path mime_type SIZE_NORMAL in
  (log ++ [thumbnail_request full_path mime_type SIZE_NORMAL],
   {| photo_uistate := uistate;
      photo_media := media;
      photo_handle := get_handle media;
      full_path := full_path;
      folder := fst (path_split tk full_path);
      mime_type := mime_type;
      normal_pixbuf := normal_pixbuf;
      large_pixbuf := None;
      photo := Some normal_pixbuf |}).

Definition set_from_pixbuf {tk} (self : DeepPhoto tk) (p : option (Pixbuf tk))
    : DeepPhoto tk :=
  {| photo_uistate := photo_uistate self;
     photo_media := photo_media self;
     photo_handle := photo_handle self;
     full_path := full_path self;
     folder := folder self;
     mime_type := mime_type self;
     normal_pixbuf := normal_pixbuf self;
     large_pixbuf := large_pixbuf self;
     photo := p |}.

Definition set_large_pixbuf {tk} (self : DeepPhoto tk) (p : Pixbuf tk)
    : DeepPhoto tk :=
  {| photo_uistate := photo_uistate self;
     photo_media := photo_media self;
     photo_handle := photo_handle self;
     full_path := full_path self;
     folder := folder self;
     mime_type := mime_type self;
     normal_pixbuf := normal_pixbuf self;
     large_pixbuf := Some p;
     photo := photo self |}.

(** [enter_notify]: the large thumbnail is asked for when none is kept *)
Definition enter_notify {tk} (st : list Effect * DeepPhoto tk)
    : list Effect * DeepPhoto tk :=
  let (log, self) := st in
  let (log, self) :=
    match large_pixbuf self with
    | None =>
        (log ++ [thumbnail_request (full_path self) (mime_type self) SIZE_LARGE],
         set_large_pixbuf self
           (get_thumbnail_image tk (List.length log) (full_path self)
              (mime_type self) SIZE_LARGE))
    | Some _ => (log, self)
    end in
  (log, set_from_pixbuf self (large_pixbuf self)).

Definition leave_notify {tk} (st : list Effect * DeepPhoto tk)
    : list Effect * DeepPhoto tk :=
  let (log, self) := st in
  (log, set_from_pixbuf self (Some (normal_pixbuf self))).

(** [_show_menu] *)
Definition _show_menu {tk} (self : DeepPhoto tk) (event : ButtonEvent)
    (log : list Effect) : list Effect :=
  let menu :=
    [MenuItem MSG_VIEW (open_file_with_default_application (full_path self));
     MenuItem MSG_OPEN_CONTAINING_FOLDER
       (open_file_with_default_application (folder self));
     SeparatorMenuItem;
     MenuItem MSG_EDIT (EditMedia (photo_media self));
     SeparatorMenuItem;
     MenuItem MSG_MAKE_ACTIVE_MEDIA (set_active (photo_handle self) "Media")] in
  log ++ [menu_popup menu (event_button event) (event_time event)].

Definition EventType_eqb (a b : EventType) : bool :=
  match a, b with
  | BUTTON_PRESS, BUTTON_PRESS
  | DOUBLE_BUTTON_PRESS, DOUBLE_BUTTON_PRESS
  | TRIPLE_BUTTON_PRESS, TRIPLE_BUTTON_PRESS
  | BUTTON_RELEASE, BUTTON_RELEASE => true
  | _, _ => false
  end.

(** truth value of [self.handle and self.uistate] *)
Definition handle_and_uistate {tk} (self : DeepPhoto tk) : bool :=
  negb (photo_handle self =? "") &&
  match photo_uistate self with Some _ => true | None => false end.

(** [_handle_button_press]: the effects, and the value returned to Gtk *)
Definition _handle_button_press {tk} (self : DeepPhoto tk) (event : ButtonEvent)
    (log : list Effect) : list Effect * bool :=
  if EventType_eqb (event_type event) DOUBLE_BUTTON_PRESS
     && (event_button event =? 1)%nat then
    (log ++ [open_editor (photo_media self)], true)
  else if is_right_click tk event then
    if handle_and_uistate self then (_show_menu self event log, true)
    else (log, false)
  else (log, false).

Inductive HoverEvent := Enter | Leave.

Definition hover_step {tk} (st : list Effect * DeepPhoto tk) (ev : HoverEvent)
    : list Effect * DeepPhoto tk :=
  match ev with
  | Enter => enter_notify st
  | Leave => leave_notify st
  end.

(** the pointer entering and leaving the image, time after time *)
Definition hover {tk} (evs : list HoverEvent) (st : list Effect * DeepPhoto tk)
    : list Effect * DeepPhoto tk :=
  fold_left hover_step evs st.

(** the photo that [ImageBox.__init__] builds for its media object *)
Definition ImageBox_photo (tk : Toolkit) (db : Db) (uistate : option UIState)
    (img : ImageBox) (log : list Effect) : list Effect * DeepPhoto tk :=
  new_DeepPhoto tk db uistate (image_media img) log.

Module SampleToolkit.
(** a toolkit whose pixbufs record what was asked for, and when *)
Definition tk : Toolkit :=
  {| Pixbuf := nat * string * ThumbSize;
     media_path_full := fun _ path => ("/media/" ++ path)%string;
     path_split := fun p => ("/media", p);
     get_thumbnail_image := fun n path _ size => (n, path, size);
     is_right_click := fun ev =>
       EventType_eqb (event_type ev) BUTTON_PRESS && (event_button ev =? 3)%nat |}.

Definition photo_M1 : list Effect * DeepPhoto tk :=
  new_DeepPhoto tk Sample.db (Some the_uistate) (Sample.media "M1" "Zebra") [].

Definition right_click : ButtonEvent :=
  {| event_type := BUTTON_PRESS; event_button := 3; event_time := 17 |}.

Definition double_click : ButtonEvent :=
  {| event_type := DOUBLE_BUTTON_PRESS; event_button := 1; event_time := 18 |}.
End SampleToolkit.

(** * Properties *)

(** ** Order of strings *)

Lemma ltb_Lt (a b : string) : (a <? b) = true <-> String.compare a b = Lt.
Proof.
  unfold String.ltb. destruct (String.compare a b); split; congruence.
Qed.

Lemma ltb_irrefl (a : string) : (a <? a) = false.
Proof.
  destruct (a <? a) eqn:E; trivial.
  apply ltb_Lt, String_as_OT.cmp_lt, String_as_OT.lt_not_eq in E.
  now elim E.
Qed.

Lemma ltb_trans (a b c : string) :
  (a <? b) = true -> (b <? c) = true -> (a <? c) = true.
Proof.
  rewrite !ltb_Lt. intros H1 H2.
  apply String_as_OT.cmp_lt in H1, H2. apply String_as_OT.cmp_lt.
  eapply String_as_OT.lt_trans; eassumption.
Qed.

Lemma ltb_asym (a b : string) : (a <? b) = true -> (b <? a) = false.
Proof.
  intros H. destruct (b <? a) eqn:E; trivial.
  pose proof (ltb_trans _ _ _ H E) as F. now rewrite ltb_irrefl in F.
Qed.

Lemma ltb_connex (a b : string) :
  (a <? b) = false -> (b <? a) = false -> a = b.
Proof.
  unfold String.ltb. rewrite (String.compare_antisym a b).
  destruct (String.compare b a) eqn:E; simpl; try discriminate.
  intros _ _. symmetry. now apply String.compare_eq_iff.
Qed.

Lemma not_ltb_trans (a b c : string) :
  (b <? a) = false -> (c <? b) = false -> (c <? a) = false.
Proof.
  intros H1 H2. destruct (c <? a) eqn:E; trivial.
  destruct (a <? b) eqn:F.
  - pose proof (ltb_trans _ _ _ E F). congruence.
  - pose proof (ltb_connex _ _ F H1). subst. congruence.
Qed.

(** ** The sort *)

Section Sorting.
Context {A : Type} (key : A -> string).

Lemma key_le_trans x y z : key_le key x y -> key_le key y z -> key_le key x z.
Proof. unfold key_le. intros. eapply not_ltb_trans; eassumption. Qed.

Lemma insert_by_perm x l : Permutation (insert_by key x l) (x :: l).
Proof.
  induction l as [|y l IH]; simpl; auto.
  destruct (key y <? key x); auto.
  rewrite IH. apply perm_swap.
Qed.

Lemma list_sort_perm l : Permutation (list_sort key l) l.
Proof.
  induction l as [|x l IH]; simpl; auto.
  unfold list_sort in *. simpl. rewrite insert_by_perm. now constructor.
Qed.

Lemma insert_by_sorted x l :
  StronglySorted (key_le key) l -> StronglySorted (key_le key) (insert_by key x l).
Proof.
  induction 1 as [|y l Hs IH Hall]; simpl.
  - repeat constructor.
  - destruct (key y <? key x) eqn:E.
    + constructor; auto.
      eapply Permutation_Forall.
      * symmetry. apply insert_by_perm.
      * constructor; auto. unfold key_le. now apply ltb_asym.
    + constructor.
      * now constructor.
      * constructor; [exact E|].
        eapply Forall_impl; [|exact Hall].
        intros z Hz. eapply key_le_trans; [exact E|exact Hz].
Qed.

Lemma list_sort_sorted l : StronglySorted (key_le key) (list_sort key l).
Proof.
  induction l as [|x l IH]; simpl.
  - constructor.
  - now apply insert_by_sorted.
Qed.

Lemma insert_by_stable k x l :
  with_key key k (insert_by key x l) = with_key key k (x :: l).
Proof.
  unfold with_key.
  induction l as [|y l IH]; simpl; auto.
  destruct (key y <? key x) eqn:E; auto.
  simpl. rewrite IH. simpl.
  destruct (key y =? k) eqn:Ey; destruct (key x =? k) eqn:Ex; auto.
  apply String.eqb_eq in Ey, Ex. rewrite Ey, Ex, ltb_irrefl in E.
  discriminate.
Qed.

Lemma list_sort_stable k l : with_key key k (list_sort key l) = with_key key k l.
Proof.
  induction l as [|x l IH]; simpl; auto.
  change (list_sort key (x :: l)) with (insert_by key x (list_sort key l)).
  rewrite insert_by_stable. unfold with_key in *. simpl.
  now rewrite IH.
Qed.

Lemma with_key_In k x l : In x (with_key key k l) <-> In x l /\ key x = k.
Proof.
  unfold with_key. rewrite filter_In, String.eqb_eq. tauto.
Qed.

(** Two sorted lists with the same elements of each key, in the same
    order, are equal: the result of a stable sort is determined. *)
Lemma stable_sort_unique l1 : forall l2,
  StronglySorted (key_le key) l1 -> StronglySorted (key_le key) l2 ->
  (forall k, with_key key k l1 = with_key key k l2) ->
  l1 = l2.
Proof.
  induction l1 as [|a l1 IH]; intros l2 S1 S2 Heq.
  - destruct l2 as [|b l2]; trivial.
    specialize (Heq (key b)). simpl in Heq.
    rewrite String.eqb_refl in Heq. discriminate.
  - destruct l2 as [|b l2].
    + specialize (Heq (key a)). simpl in Heq.
      rewrite String.eqb_refl in Heq. discriminate.
    + inversion S1 as [|? ? S1' F1]; inversion S2 as [|? ? S2' F2]; subst.
      assert (Hk : key a = key b).
      { apply ltb_connex.
        - destruct (String.eqb (key b) (key a)) eqn:E;
            [apply String.eqb_eq in E; rewrite E; apply ltb_irrefl|].
          assert (Hin : In a (with_key key (key a) (b :: l2))).
          { rewrite <- Heq. simpl. rewrite String.eqb_refl. now left. }
          simpl in Hin. rewrite E in Hin.
          apply with_key_In in Hin. destruct Hin as [Hin _].
          rewrite Forall_forall in F2. apply (F2 _ Hin).
        - destruct (String.eqb (key a) (key b)) eqn:E;
            [apply String.eqb_eq in E; rewrite E; apply ltb_irrefl|].
          assert (Hin : In b (with_key key (key b) (a :: l1))).
          { rewrite Heq. simpl. rewrite String.eqb_refl. now left. }
          simpl in Hin. rewrite E in Hin.
          apply with_key_In in Hin. destruct Hin as [Hin _].
          rewrite Forall_forall in F1. apply (F1 _ Hin). }
      assert (Hab : a = b).
      { pose proof (Heq (key a)) as H. simpl in H.
        rewrite <- Hk, String.eqb_refl in H. now inversion H. }
      subst b. f_equal. apply IH; auto.
      intros k. specialize (Heq k). simpl in Heq.
      destruct (key a =? k); [now inversion Heq|exact Heq].
Qed.

(** Hence a list that is sorted, and that keeps the order of [l] among
    the elements of each key, is the one [list_sort] returns. *)
Lemma list_sort_unique l l' :
  StronglySorted (key_le key) l' ->
  (forall k, with_key key k l' = with_key key k l) ->
  l' = list_sort key l.
Proof.
  intros S H. apply stable_sort_unique; auto using list_sort_sorted.
  intros k. now rewrite list_sort_stable.
Qed.
End Sorting.

(** ** The dict *)

Lemma dict_contains_In k d : dict_contains k d = true <-> In k (keys d).
Proof.
  unfold dict_contains, keys. rewrite existsb_exists, in_map_iff.
  split; intros [e [H1 H2]]; exists e.
  - apply String.eqb_eq in H2. auto.
  - rewrite String.eqb_eq. auto.
Qed.

Lemma dict_contains_false k d : dict_contains k d = false <-> ~ In k (keys d).
Proof.
  rewrite <- dict_contains_In. destruct (dict_contains k d); split; congruence.
Qed.

Lemma dict_setitem_fresh k v d :
  ~ In k (keys d) -> dict_setitem k v d = d ++ [(k, v)].
Proof.
  induction d as [|[k' v'] d IH]; simpl; intros H; trivial.
  destruct (k' =? k) eqn:E.
  - apply String.eqb_eq in E. tauto.
  - rewrite IH; tauto.
Qed.

Lemma keys_app d1 d2 : keys (d1 ++ d2) = keys d1 ++ keys d2.
Proof. apply map_app. Qed.

Lemma NoDup_snoc {A} (l : list A) x : NoDup l -> ~ In x l -> NoDup (l ++ [x]).
Proof.
  intros H1 H2. apply NoDup_rev in H1.
  rewrite <- (rev_involutive (l ++ [x])). apply NoDup_rev.
  rewrite rev_app_distr. simpl. constructor; trivial.
  now rewrite <- in_rev.
Qed.

(** ** Composing collectors *)

Section Collect.
Variable db : Db.

Lemma with_all_media_same s d :
  all_media s = Some d -> s = with_all_media s d.
Proof. destruct s; unfold with_all_media; simpl; congruence. Qed.

(** the four parts of [collects], once the extension is known *)
Ltac extension ext := exists ext; split; [|split; [|split]].

Lemma collects_weaken c (src src' : handle -> Prop)
    (dang dang' : ObjKind -> handle -> Prop) :
  collects db c src dang ->
  (forall h, src h <-> src' h) ->
  (forall k h, dang k h <-> dang' k h) ->
  collects db c src' dang'.
Proof.
  intros H Hs Hd s d Ha Hok.
  destruct (H s d Ha Hok) as (ext & H1 & H2 & H3 & H4).
  extension ext; trivial.
  - intros h Hh. apply Hs. auto.
  - destruct (snd (c s)) as [e|u].
    + destruct H4 as (k & h & -> & Hk). exists k, h. split; trivial.
      now apply Hd.
    + destruct H4 as [H4 H5]. split.
      * intros h Hh. apply H4. now apply Hs.
      * intros k h Hk. apply (H5 k h). now apply Hd.
Qed.

Lemma collects_ret : collects db (ret tt) (fun _ => False) (fun _ _ => False).
Proof.
  intros s d Ha Hok. extension (@nil (handle * string));
    rewrite ?app_nil_r; simpl; auto.
  - now apply with_all_media_same.
  - tauto.
Qed.

Lemma collects_seq c1 c2 src1 src2 dang1 dang2 :
  collects db c1 src1 dang1 ->
  collects db c2 src2 dang2 ->
  collects db (c1 ;; c2)
    (fun h => src1 h \/ src2 h) (fun k h => dang1 k h \/ dang2 k h).
Proof.
  intros H1 H2 s d Ha Hok.
  destruct (H1 s d Ha Hok) as (e1 & Hs1 & Hok1 & Hsrc1 & Hres1).
  unfold bind. destruct (c1 s) as [s1 [e|[]]]; simpl in *.
  - extension e1; auto.
    destruct Hres1 as (k & h & -> & Hk). exists k, h. auto.
  - subst s1.
    destruct (H2 (with_all_media s (d ++ e1)) (d ++ e1) eq_refl Hok1)
      as (e2 & Hs2 & Hok2 & Hsrc2 & Hres2).
    extension (e1 ++ e2); rewrite ?app_assoc; auto.
    + intros h. rewrite keys_app, in_app_iff. intros [Hh|Hh]; auto.
    + destruct (snd (c2 (with_all_media s (d ++ e1)))) as [e|u].
      * destruct Hres2 as (k & h & -> & Hk). exists k, h. auto.
      * destruct Hres1 as [Hin1 Hnd1]. destruct Hres2 as [Hin2 Hnd2].
        split.
        -- intros h [Hh|Hh]; auto.
           rewrite keys_app, in_app_iff. left. auto.
        -- intros k h [Hk|Hk]; [apply (Hnd1 k h Hk)|apply (Hnd2 k h Hk)].
Qed.

Lemma collects_for {A} (xs : list A) (body : A -> M unit)
    (src : A -> handle -> Prop) (dang : A -> ObjKind -> handle -> Prop) :
  (forall x, In x xs -> collects db (body x) (src x) (dang x)) ->
  collects db (for_ xs body)
    (fun h => exists x, In x xs /\ src x h)
    (fun k h => exists x, In x xs /\ dang x k h).
Proof.
  induction xs as [|x xs IH]; intros H.
  - simpl. eapply collects_weaken; [apply collects_ret| |].
    + intros h. split; [tauto|]. intros (x & [] & _).
    + intros k h. split; [tauto|]. intros (x & [] & _).
  - simpl. eapply collects_weaken.
    + apply collects_seq.
      * apply (H x). now left.
      * apply IH. intros y Hy. apply H. now right.
    + intros h. split.
      * intros [Hh|(y & Hy & Hh)]; [exists x|exists y]; simpl; auto.
      * intros (y & [->|Hy] & Hh); [left|right]; eauto.
    + intros k h. split.
      * intros [Hh|(y & Hy & Hh)]; [exists x|exists y]; simpl; auto.
      * intros (y & [->|Hy] & Hh); [left|right]; eauto.
Qed.

Lemma collects_lookup {A} kind (tbl : handle -> option A) hh
    (body : A -> M unit)
    (src : A -> handle -> Prop) (dang : A -> ObjKind -> handle -> Prop) :
  (forall x, tbl hh = Some x -> collects db (body x) (src x) (dang x)) ->
  collects db (x <- lookup kind tbl hh ;; body x)
    (fun h => exists x, tbl hh = Some x /\ src x h)
    (fun k h => (k = kind /\ h = hh /\ tbl hh = None) \/
                (exists x, tbl hh = Some x /\ dang x k h)).
Proof.
  intros H s d Ha Hok. unfold bind, lookup.
  destruct (tbl hh) as [x|] eqn:E; simpl.
  - destruct (H x eq_refl s d Ha Hok) as (ext & H1 & H2 & H3 & H4).
    extension ext; auto.
    + intros h Hh. exists x. auto.
    + destruct (snd (body x s)) as [e|u].
      * destruct H4 as (k & h & -> & Hk). exists k, h. split; trivial.
        right. eauto.
      * destruct H4 as [H4 H5]. split.
        -- intros h (y & Hy & Hh). inversion Hy; subst. auto.
        -- intros k h [(_ & _ & Hn)|(y & Hy & Hk)]; [discriminate|].
           inversion Hy; subst. apply (H5 k h Hk).
  - extension (@nil (handle * string)); rewrite ?app_nil_r; auto.
    + now apply with_all_media_same.
    + intros h [].
    + exists kind, hh. auto.
Qed.

(** One round of the loop of [process_media]. *)
Lemma collects_media_ref (h : handle) :
  collects db
    (d <- get_all_media ;;
     if negb (dict_contains h d) then
       media <- get_media_from_handle db h ;;
       d <- get_all_media ;;
       set_all_media (dict_setitem h (get_description media) d)
     else ret tt)
    (fun h' => h' = h)
    (fun k h' => k = MediaK /\ h' = h /\ media_tbl db h = None).
Proof.
  intros s d Ha Hok. pose proof Hok as [Hnd Hdesc].
  unfold bind, get_all_media. rewrite Ha.
  destruct (dict_contains h d) eqn:E; simpl.
  - apply dict_contains_In in E.
    extension (@nil (handle * string)); rewrite ?app_nil_r; auto.
    + now apply with_all_media_same.
    + intros h' [].
    + split.
      * intros h' ->. exact E.
      * intros k h' (_ & _ & Hn).
        apply in_map_iff in E. destruct E as ([h0 dsc] & <- & Hin).
        destruct (Hdesc _ _ Hin) as (m & Hm & _). simpl in Hn. congruence.
  - apply dict_contains_false in E.
    unfold get_media_from_handle, lookup.
    destruct (media_tbl db h) as [m|] eqn:Em; simpl.
    + rewrite Ha. simpl. rewrite dict_setitem_fresh by exact E.
      extension [(h, get_description m)].
      * reflexivity.
      * split.
        -- rewrite keys_app. simpl. now apply NoDup_snoc.
        -- intros h' dsc Hin. apply in_app_iff in Hin.
           destruct Hin as [Hin|[Hin|[]]]; [now apply Hdesc|].
           inversion Hin; subst. eauto.
      * intros h' [<-|[]]. reflexivity.
      * split.
        -- intros h' ->. rewrite keys_app, in_app_iff. right. now left.
        -- intros k h' (_ & _ & Hn). discriminate.
    + extension (@nil (handle * string)); rewrite ?app_nil_r; auto.
      * now apply with_all_media_same.
      * intros h' [].
      * exists MediaK, h. auto.
Qed.

Lemma process_media_collects {T} `{MediaBase T} (gobj : T) :
  collects db (process_media db gobj)
    (direct_media gobj) (dangling_media db gobj).
Proof.
  unfold process_media.
  eapply collects_weaken.
  - apply collects_for. intros x _. apply collects_media_ref.
  - intros h. unfold direct_media, media_handles. rewrite in_map_iff.
    split; intros (x & H1 & H2); exists x; auto.
  - intros k h. unfold dangling_media, direct_media, media_handles.
    rewrite in_map_iff. split.
    + intros (x & H1 & H2 & H3 & H4). subst. eauto.
    + intros (H1 & (x & H2 & H3) & H4). subst. exists x. auto.
Qed.

Lemma process_citations_collects {T} `{CitationBase T} (gobj : T) :
  collects db (process_citations db gobj)
    (cited_media db gobj) (dangling_citations db gobj).
Proof.
  unfold process_citations.
  eapply collects_weaken.
  - apply collects_for. intros ch _.
    apply collects_lookup. intros cit _. apply process_media_collects.
  - intros h. unfold cited_media. split.
    + intros (ch & H1 & cit & H2 & H3). eauto.
    + intros (ch & cit & H1 & H2 & H3). eauto.
  - intros k h. unfold dangling_citations. split.
    + intros (ch & H1 & [(H2 & H3 & H4)|(cit & H2 & H3)]).
      * subst. auto.
      * right. eauto.
    + intros [(H1 & H2 & H3)|(ch & cit & H1 & H2 & H3)].
      * exists h. split; auto.
      * exists ch. split; auto. right. eauto.
Qed.

Lemma process_events_collects {T} `{EventRefBase T} (gobj : T) :
  collects db (process_events db gobj)
    (event_cited_media db gobj) (dangling_events db gobj).
Proof.
  unfold process_events.
  eapply collects_weaken.
  - apply collects_for. intros er _.
    apply collects_lookup. intros ev _. apply process_citations_collects.
  - intros h. unfold event_cited_media. split.
    + intros (er & H1 & ev & H2 & H3). eauto.
    + intros (er & ev & H1 & H2 & H3). eauto.
  - intros k h. unfold dangling_events. split.
    + intros (er & H1 & [(H2 & H3 & H4)|(ev & H2 & H3)]).
      * subst. left. eauto.
      * right. eauto.
    + intros [(H1 & (er & H2 & H3) & H4)|(er & ev & H1 & H2 & H3)].
      * exists er. split; auto. left. subst. auto.
      * exists er. split; auto. right. eauto.
Qed.

Lemma apply_rule_collects (p : Person) (r : Rule) :
  collects db (apply_rule db p r) (rule_sources db p r) (rule_dangling db p r).
Proof.
  destruct r; cbn [apply_rule rule_sources rule_dangling].
  - apply process_media_collects.
  - apply process_citations_collects.
  - apply process_citations_collects.
  - apply collects_for. intros name _. apply process_citations_collects.
  - apply process_events_collects.
  - eapply collects_weaken.
    + apply collects_for. intros fh _.
      apply collects_lookup. intros fam _.
      apply collects_seq;
        [apply process_media_collects|apply process_events_collects].
    + intros h. unfold family_media. split.
      * intros (fh & H1 & fam & H2 & H3). exists fh, fam. auto.
      * intros (fh & fam & H1 & H2 & H3). exists fh. split; auto.
        exists fam. auto.
    + intros k h. unfold dangling_families. split.
      * intros (fh & H1 & [(H2 & H3 & H4)|(fam & H2 & H3)]).
        -- subst. left. auto.
        -- right. eauto.
      * intros [(H1 & H2 & H3)|(fh & fam & H1 & H2 & H3)].
        -- exists h. split; auto.
        -- exists fh. split; auto. right. exists fam. auto.
Qed.

(** The traversal as a whole, for any order of the rules. *)
Lemma traversal_collects (p : Person) (order : list Rule) :
  collects db (for_ order (apply_rule db p))
    (fun h => exists r, In r order /\ rule_sources db p r h)
    (fun k h => exists r, In r order /\ rule_dangling db p r k h).
Proof.
  apply collects_for. intros r _. apply apply_rule_collects.
Qed.

Lemma rule_dangling_unresolved p r k h :
  rule_dangling db p r k h -> unresolved db k h.
Proof.
  assert (Hm : forall T (MB : MediaBase T) (g : T),
             dangling_media db g k h -> unresolved db k h).
  { intros T MB g (-> & _ & Hn). exact Hn. }
  assert (Hc : forall T (CB : CitationBase T) (g : T),
             dangling_citations db g k h -> unresolved db k h).
  { intros T CB g [(-> & _ & Hn)|(ch & cit & _ & _ & Hd)]; [exact Hn|].
    exact (Hm _ _ _ Hd). }
  assert (He : forall T (EB : EventRefBase T) (g : T),
             dangling_events db g k h -> unresolved db k h).
  { intros T EB g [(-> & _ & Hn)|(er & ev & _ & _ & Hd)]; [exact Hn|].
    exact (Hc _ _ _ Hd). }
  destruct r; cbn [rule_dangling].
  - apply Hm.
  - apply Hc.
  - apply Hc.
  - intros (name & _ & Hd). exact (Hc _ _ _ Hd).
  - apply He.
  - intros [(-> & _ & Hn)|(fh & fam & _ & _ & [Hd|Hd])].
    + exact Hn.
    + exact (Hm _ _ _ Hd).
    + exact (He _ _ _ Hd).
Qed.

Lemma collected_sources_rules p h :
  collected_sources db p h <->
  exists r, In r source_order /\ rule_sources db p r h.
Proof.
  unfold collected_sources, source_order. split.
  - intros [H|[H|[H|[H|[H|H]]]]];
      [exists PersonMedia|exists PersonCitations
      |exists PrimaryNameCitations|exists AlternateNameCitations
      |exists PersonEvents|exists Families]; simpl; tauto.
  - intros (r & _ & H). destruct r; simpl in H; tauto.
Qed.
End Collect.

(** ** The widgets *)

Lemma for_remove l : forall s,
  for_ l (fun image => content_box_remove image) s =
  ({| content_box := fold_left (fun cb w => remove_child w cb) l (content_box s);
      image_list := image_list s; all_media := all_media s |}, inr tt).
Proof.
  induction l as [|w l IH]; intros s; simpl.
  - unfold ret. now destruct s.
  - unfold bind. simpl. rewrite IH. reflexivity.
Qed.

Lemma remove_children_self l :
  fold_left (fun cb w => remove_child w cb) l l = [].
Proof.
  induction l as [|w l IH]; simpl; trivial.
  destruct (ImageBox_eq_dec w w); [exact IH|congruence].
Qed.

Lemma clear_images_cleared s :
  gui_consistent s -> clear_images s = (cleared s, inr tt).
Proof.
  unfold gui_consistent, clear_images, bind, get_image_list. intros H.
  rewrite for_remove. simpl. rewrite H, remove_children_self. reflexivity.
Qed.

Lemma clear_images_succeeds s :
  snd (clear_images s) = inr tt /\ image_list (fst (clear_images s)) = [] /\
  all_media (fst (clear_images s)) = all_media s.
Proof.
  unfold clear_images, bind, get_image_list. rewrite for_remove. simpl. auto.
Qed.

Lemma add_image_run db h m s :
  media_tbl db h = Some m ->
  add_image db h s =
  ({| content_box := content_box s ++ [new_ImageBox m];
      image_list := image_list s ++ [new_ImageBox m];
      all_media := all_media s |}, inr tt).
Proof.
  intros Hm. unfold add_image, bind, get_media_from_handle, lookup.
  rewrite Hm. reflexivity.
Qed.

Lemma add_images_shown (db : Db) (l : list (handle * string)) : forall s,
  (forall e, In e l ->
     exists m, media_tbl db (fst e) = Some m /\ get_description m = snd e) ->
  exists imgs,
    for_ l (fun media => add_image db (fst media)) s =
    ({| content_box := content_box s ++ imgs;
        image_list := image_list s ++ imgs;
        all_media := all_media s |}, inr tt) /\
    Forall2 (shows db) l imgs.
Proof.
  induction l as [|e l IH]; intros s H.
  - exists []. simpl. rewrite !app_nil_r. split; [|constructor].
    unfold ret. now destruct s.
  - destruct (H e (or_introl eq_refl)) as (m & Hm & Hd).
    simpl. unfold bind at 1. rewrite (add_image_run _ _ _ _ Hm).
    match goal with |- context [for_ l _ ?s1] =>
      destruct (IH s1) as (imgs & Hrun & Hall) end.
    { intros e' He'. apply H. now right. }
    exists (new_ImageBox m :: imgs). rewrite Hrun. simpl.
    rewrite <- !app_assoc. simpl. split; trivial.
    constructor; trivial. exists m. auto.
Qed.

(** ** The run as a whole *)

Lemma dict_ok_nil db : dict_ok db [].
Proof. split; [constructor|intros h dsc []]. Qed.

(** [main_in_order] without the monad: the stages of a run. *)
Lemma main_in_order_stages db order a s :
  main_in_order db order a s =
  let s1 := fst (clear_images s) in
  match a with
  | None => (s1, inr tt)
  | Some h =>
      if h =? "" then (s1, inr tt) else
      match person_tbl db h with
      | None => (s1, inl (HandleError PersonK h))
      | Some p =>
          match for_ order (apply_rule db p) (with_all_media s1 []) with
          | (s2, inl e) => (s2, inl e)
          | (s2, inr _) =>
              match all_media s2 with
              | None => (s2, inl (AttributeError "all_media"))
              | Some d =>
                  match for_ (list_sort snd d)
                          (fun media => add_image db (fst media)) s2 with
                  | (s3, inl e) => (s3, inl e)
                  | (s3, inr _) => (s3, inr tt)
                  end
              end
          end
      end
  end.
Proof.
  pose proof (clear_images_succeeds s) as (Hc & _).
  unfold main_in_order. unfold bind at 1.
  destruct (clear_images s) as [s1 [e|[]]]; simpl in *; [discriminate|].
  destruct a as [h|]; [|reflexivity].
  destruct (h =? ""); [reflexivity|].
  unfold bind at 1. unfold get_person_from_handle, lookup.
  destruct (person_tbl db h) as [p|]; [|reflexivity].
  unfold ret at 1. unfold bind at 1. unfold set_all_media at 1.
  unfold bind at 1. fold (with_all_media s1 []).
  destruct (for_ order (apply_rule db p) (with_all_media s1 []))
    as [s2 [e|[]]]; [reflexivity|].
  unfold bind at 1. unfold get_all_media at 1.
  destruct (all_media s2) as [d|]; [|reflexivity].
  unfold bind at 1, dict_items.
  destruct (for_ (list_sort snd d) _ s2) as [s3 [e|[]]]; reflexivity.
Qed.

Lemma main_in_order_absent db order a s :
  gui_consistent s -> a = None \/ a = Some "" ->
  main_in_order db order a s = (cleared s, inr tt).
Proof.
  intros Hg Ha. rewrite main_in_order_stages, (clear_images_cleared _ Hg).
  destruct Ha as [->| ->]; reflexivity.
Qed.

Lemma main_in_order_unresolved db order a h s :
  gui_consistent s -> present a h -> person_tbl db h = None ->
  main_in_order db order a s = (cleared s, inl (HandleError PersonK h)).
Proof.
  intros Hg [-> Hne] Hp.
  rewrite main_in_order_stages, (clear_images_cleared _ Hg). simpl.
  apply String.eqb_neq in Hne. rewrite Hne, Hp. reflexivity.
Qed.

Lemma main_in_order_resolved db order a h p s :
  gui_consistent s -> present a h -> person_tbl db h = Some p ->
  exists d,
    dict_ok db d /\
    (forall m, In m (keys d) -> exists r, In r order /\ rule_sources db p r m) /\
    ((forall k h', ~ exists r, In r order /\ rule_dangling db p r k h') /\
     (forall m, (exists r, In r order /\ rule_sources db p r m) -> In m (keys d)) /\
     (exists imgs,
        main_in_order db order a s =
        ({| content_box := imgs; image_list := imgs; all_media := Some d |},
         inr tt) /\
        Forall2 (shows db) (list_sort snd d) imgs)
     \/
     (exists k h',
        (exists r, In r order /\ rule_dangling db p r k h') /\
        main_in_order db order a s =
        ({| content_box := []; image_list := []; all_media := Some d |},
         inl (HandleError k h')))).
Proof.
  intros Hg [-> Hne] Hp.
  rewrite main_in_order_stages, (clear_images_cleared _ Hg). simpl.
  apply String.eqb_neq in Hne. rewrite Hne, Hp.
  set (s0 := with_all_media (cleared s) []).
  destruct (traversal_collects db p order s0 [] eq_refl (dict_ok_nil db))
    as (d & Hst & Hok & Hsrc & Hres).
  simpl in Hst, Hok, Hsrc, Hres.
  exists d. split; [exact Hok|]. split; [exact Hsrc|].
  destruct (for_ order (apply_rule db p) s0) as [s1 [e|[]]]; simpl in *; subst s1.
  - right. destruct Hres as (k & h' & -> & Hk). exists k, h'. auto.
  - left. destruct Hres as [Hin Hnd]. split; [|split; trivial].
    + intros k h' Hk. apply (Hnd k h' Hk).
    + destruct (add_images_shown db (list_sort snd d) (with_all_media s0 d))
        as (imgs & Hrun & Hall).
      { intros e He. destruct e as [k dsc].
        apply (Permutation_in _ (list_sort_perm snd d)) in He.
        apply Hok in He. exact He. }
      exists imgs. split; trivial.
      simpl. simpl in Hrun. rewrite Hrun. reflexivity.
Qed.

(** [main] is the run that applies the rules in the order of the source. *)
Lemma main_in_source_order db a s :
  main db a s = main_in_order db source_order a s.
Proof.
  unfold main, main_in_order, source_order. cbn [for_ apply_rule].
  unfold bind, ret.
  destruct (clear_images s) as [s0 [e|[]]]; trivial.
  destruct a as [h|]; trivial.
  destruct (h =? ""); trivial.
  destruct (get_person_from_handle db h s0) as [s1 [e|p]]; trivial.
  destruct (set_all_media [] s1) as [s2 [e|[]]]; trivial.
  destruct (process_media db p s2) as [s3 [e|[]]]; trivial.
  destruct (process_citations db p s3) as [s4 [e|[]]]; trivial.
  destruct (process_citations db (get_primary_name p) s4) as [s5 [e|[]]]; trivial.
  destruct (for_ (get_alternate_names p) _ s5) as [s6 [e|[]]]; trivial.
  destruct (process_events db p s6) as [s7 [e|[]]]; trivial.
  destruct (for_ (get_family_handle_list p) _ s7) as [s8 [e|[]]]; trivial.
Qed.

(** ** Entries are appended, never replaced *)

Section Extends.
Variable db : Db.

Lemma extends_ret : extends db (ret tt).
Proof.
  intros s d Ha. exists []. rewrite app_nil_r. split; [|split].
  - simpl. destruct s; unfold with_all_media; simpl in *; congruence.
  - intros k [].
  - intros h dsc [].
Qed.

Lemma extends_seq c1 c2 :
  extends db c1 -> extends db c2 -> extends db (c1 ;; c2).
Proof.
  intros H1 H2 s d Ha.
  destruct (H1 s d Ha) as (e1 & Hs1 & Hk1 & Hd1).
  unfold bind. destruct (c1 s) as [s1 [e|[]]]; simpl in *.
  - exists e1. auto.
  - subst s1.
    destruct (H2 (with_all_media s (d ++ e1)) (d ++ e1) eq_refl)
      as (e2 & Hs2 & Hk2 & Hd2).
    exists (e1 ++ e2). rewrite app_assoc. split; [exact Hs2|]. split.
    + intros k. rewrite keys_app, in_app_iff. intros [Hk|Hk]; auto.
      intros Hin. apply (Hk2 k Hk). rewrite keys_app, in_app_iff. auto.
    + intros h dsc Hin. apply in_app_iff in Hin.
      destruct Hin; [apply Hd1|apply Hd2]; trivial.
Qed.

Lemma extends_for {A} (xs : list A) (body : A -> M unit) :
  (forall x, extends db (body x)) -> extends db (for_ xs body).
Proof.
  intros H. induction xs as [|x xs IH]; simpl.
  - apply extends_ret.
  - apply extends_seq; auto.
Qed.

Lemma media_ref_extends (h : handle) :
  extends db
    (d <- get_all_media ;;
     if negb (dict_contains h d) then
       media <- get_media_from_handle db h ;;
       d <- get_all_media ;;
       set_all_media (dict_setitem h (get_description media) d)
     else ret tt).
Proof.
  intros s d Ha. unfold bind, get_all_media. rewrite Ha.
  destruct (dict_contains h d) eqn:E; simpl.
  - apply (extends_ret s d Ha).
  - apply dict_contains_false in E.
    unfold get_media_from_handle, lookup.
    destruct (media_tbl db h) as [m|] eqn:Em; simpl.
    + rewrite Ha. simpl. rewrite dict_setitem_fresh by exact E.
      exists [(h, get_description m)].
      split; [reflexivity|]. split.
      * intros k [<-|[]]. exact E.
      * intros h' dsc [Hin|[]]. inversion Hin; subst. eauto.
    + apply (extends_ret s d Ha).
Qed.

Lemma process_media_extends {T} `{MediaBase T} (gobj : T) :
  extends db (process_media db gobj).
Proof.
  unfold process_media. apply extends_for. intros mr.
  apply media_ref_extends.
Qed.
End Extends.

(** ** Auxiliary facts on the outcome *)

Lemma init_consistent : gui_consistent init.
Proof. reflexivity. Qed.

Lemma active_cases (a : option handle) :
  (a = None \/ a = Some "") \/ exists h, present a h.
Proof.
  destruct a as [h|]; auto.
  destruct (string_dec h "") as [->|Hne]; auto.
  right. exists h. split; auto.
Qed.

Lemma shows_functional db e img1 img2 :
  shows db e img1 -> shows db e img2 -> img1 = img2.
Proof.
  intros (m1 & H1 & -> & _) (m2 & H2 & -> & _). congruence.
Qed.

Lemma shows_all_functional db l : forall imgs1 imgs2,
  Forall2 (shows db) l imgs1 -> Forall2 (shows db) l imgs2 -> imgs1 = imgs2.
Proof.
  induction l as [|e l IH]; intros imgs1 imgs2 H1 H2;
    inversion H1; inversion H2; subst; trivial.
  f_equal; [eapply shows_functional; eassumption|auto].
Qed.

Lemma shows_labels db l imgs :
  Forall2 (shows db) l imgs -> map image_label imgs = map snd l.
Proof.
  induction 1 as [|e img l imgs (m & _ & _ & Hl) _ IH]; simpl; congruence.
Qed.

Lemma shows_displayed db l imgs :
  handles_consistent db -> Forall2 (shows db) l imgs ->
  map (fun img => (get_handle (image_media img), image_label img)) imgs = l.
Proof.
  intros Hc. induction 1 as [|[k dsc] img l imgs (m & Hm & -> & Hl) _ IH];
    simpl in *; trivial.
  rewrite IH. f_equal. f_equal; trivial. now apply Hc.
Qed.

(** The two ways a run for a person in the database can end. *)
Lemma main_resolved db a h p s :
  gui_consistent s -> present a h -> person_tbl db h = Some p ->
  exists d,
    dict_ok db d /\
    ((exists imgs,
        main db a s =
        ({| content_box := imgs; image_list := imgs; all_media := Some d |},
         inr tt) /\
        Forall2 (shows db) (list_sort snd d) imgs /\
        (forall k h', ~ dangling db p k h') /\
        (forall m, In m (keys d) <-> collected_sources db p m))
     \/
     (exists k h',
        main db a s =
        ({| content_box := []; image_list := []; all_media := Some d |},
         inl (HandleError k h')) /\
        dangling db p k h' /\ unresolved db k h')).
Proof.
  intros Hg Ha Hp.
  destruct (main_in_order_resolved db source_order a h p s Hg Ha Hp)
    as (d & Hok & Hsrc & [(Hnd & Hin & imgs & Hrun & Hall)|(k & h' & Hd & Hrun)]);
    exists d; (split; [exact Hok|]).
  - left. exists imgs. rewrite main_in_source_order.
    split; [exact Hrun|]. split; [exact Hall|]. split.
    + intros k h' (r & Hr). apply (Hnd k h'). exists r. split; trivial.
      destruct r; simpl; tauto.
    + intros m. split.
      * intros Hm. apply collected_sources_rules. auto.
      * intros Hm. apply Hin. now apply collected_sources_rules.
  - right. exists k, h'. rewrite main_in_source_order. split; [exact Hrun|].
    destruct Hd as (r & _ & Hr). split.
    + exists r. exact Hr.
    + eapply rule_dangling_unresolved. exact Hr.
Qed.

(** A run that succeeds for a person in the database. *)
Lemma main_success db a h p s s' :
  gui_consistent s -> present a h -> person_tbl db h = Some p ->
  main db a s = (s', inr tt) ->
  exists d,
    dict_ok db d /\
    s' = {| content_box := content_box s'; image_list := content_box s';
            all_media := Some d |} /\
    Forall2 (shows db) (list_sort snd d) (content_box s') /\
    (forall k h', ~ dangling db p k h') /\
    (forall m, In m (keys d) <-> collected_sources db p m).
Proof.
  intros Hg Ha Hp Hrun.
  destruct (main_resolved db a h p s Hg Ha Hp)
    as (d & Hok & [(imgs & Hrun1 & Hall & Hnd & Hin)|(k & h' & Hrun1 & _)]);
    rewrite Hrun in Hrun1; [|discriminate].
  inversion Hrun1; subst s'. exists d. simpl. auto.
Qed.

(** The three ways a run can end. *)
Lemma main_outcome db a s :
  gui_consistent s ->
  (main db a s = (cleared s, inr tt) /\ (a = None \/ a = Some "")) \/
  (exists h, present a h /\ person_tbl db h = None /\
             main db a s = (cleared s, inl (HandleError PersonK h))) \/
  (exists h p, present a h /\ person_tbl db h = Some p).
Proof.
  intros Hg. destruct (active_cases a) as [Ha|(h & Ha)].
  - left. split; trivial. rewrite main_in_source_order.
    now apply main_in_order_absent.
  - right. destruct (person_tbl db h) as [p|] eqn:Hp.
    + right. eauto.
    + left. exists h. repeat (split; trivial). rewrite main_in_source_order.
      now apply main_in_order_unresolved.
Qed.

Lemma main_keeps_consistent db a s :
  gui_consistent s -> gui_consistent (fst (main db a s)).
Proof.
  intros Hg.
  destruct (main_outcome db a s Hg)
    as [[-> _]|[(h & _ & _ & ->)|(h & p & Ha & Hp)]]; try reflexivity.
  destruct (main_resolved db a h p s Hg Ha Hp)
    as (d & _ & [(imgs & -> & _)|(k & h' & -> & _)]); reflexivity.
Qed.

(** The state before a run has no influence on where the run ends, the
    stale dict of a run that stops before [self.all_media = dict()] apart. *)
Lemma main_forgets db a s1 s2 :
  gui_consistent s1 -> gui_consistent s2 ->
  snd (main db a s1) = snd (main db a s2) /\
  content_box (fst (main db a s1)) = content_box (fst (main db a s2)) /\
  image_list (fst (main db a s1)) = image_list (fst (main db a s2)).
Proof.
  intros H1 H2. rewrite !main_in_source_order, !main_in_order_stages.
  rewrite (clear_images_cleared _ H1), (clear_images_cleared _ H2).
  cbv zeta. cbn [fst].
  destruct a as [h|]; [|auto].
  destruct (h =? ""); [auto|].
  destruct (person_tbl db h) as [p|]; [|auto].
  change (with_all_media (cleared s2) []) with (with_all_media (cleared s1) []).
  auto.
Qed.

(** ** Sorted lists and permutations *)

Lemma ltb_false_leb (a b : string) : (b <? a) = false <-> (a <=? b) = true.
Proof.
  unfold String.ltb, String.leb. rewrite (String.compare_antisym a b).
  destruct (String.compare b a); simpl; split; congruence.
Qed.

Lemma sorted_strings_perm_eq (l1 : list string) : forall l2,
  StronglySorted (key_le (fun x => x)) l1 ->
  StronglySorted (key_le (fun x => x)) l2 ->
  Permutation l1 l2 -> l1 = l2.
Proof.
  induction l1 as [|a l1 IH]; intros l2 S1 S2 P.
  - apply Permutation_nil in P. now subst.
  - destruct l2 as [|b l2].
    + apply Permutation_sym, Permutation_nil in P. discriminate.
    + inversion S1 as [|? ? S1' F1]; inversion S2 as [|? ? S2' F2]; subst.
      assert (Hab : a = b).
      { assert (Ha : In a (b :: l2)) by (eapply Permutation_in; [exact P|now left]).
        assert (Hb : In b (a :: l1))
          by (eapply Permutation_in; [symmetry; exact P|now left]).
        destruct Ha as [Ha|Ha]; [now subst|].
        destruct Hb as [Hb|Hb]; [now subst|].
        rewrite Forall_forall in F1, F2.
        apply ltb_connex; [apply (F2 _ Ha)|apply (F1 _ Hb)]. }
      subst b. f_equal. apply IH; trivial.
      eapply Permutation_cons_inv. exact P.
Qed.

Lemma sorted_map_key {A} (key : A -> string) (l : list A) :
  StronglySorted (key_le key) l ->
  StronglySorted (key_le (fun x => x)) (map key l).
Proof.
  induction 1 as [|a l S IH F]; simpl; constructor; trivial.
  rewrite Forall_map. exact F.
Qed.

Lemma with_key_short {A} (key : A -> string) k (l : list A) :
  NoDup (map key l) ->
  with_key key k l = [] \/ exists e, with_key key k l = [e].
Proof.
  unfold with_key. induction l as [|x l IH]; simpl; intros Hnd; auto.
  inversion Hnd as [|? ? Hx Hl]; subst.
  destruct (key x =? k) eqn:E; [|auto].
  right. exists x. f_equal.
  apply String.eqb_eq in E.
  destruct (filter (fun e => key e =? k) l) as [|y f] eqn:Ef; trivial.
  assert (Hy : In y (filter (fun e => key e =? k) l)) by (rewrite Ef; now left).
  apply filter_In in Hy. destruct Hy as [Hy Hk]. apply String.eqb_eq in Hk.
  elim Hx. rewrite E, <- Hk. now apply in_map.
Qed.

Lemma with_key_unique_keys {A} (key : A -> string) k (l1 l2 : list A) :
  NoDup (map key l1) -> NoDup (map key l2) ->
  (forall e, In e l1 <-> In e l2) ->
  with_key key k l1 = with_key key k l2.
Proof.
  intros N1 N2 Hin.
  assert (Hmem : forall e, In e (with_key key k l1) <-> In e (with_key key k l2)).
  { intros e. rewrite !with_key_In, Hin. tauto. }
  destruct (with_key_short key k l1 N1) as [E1|[e1 E1]];
    destruct (with_key_short key k l2 N2) as [E2|[e2 E2]];
    rewrite E1, E2 in *; trivial.
  - destruct (proj2 (Hmem e2)); now left.
  - destruct (proj1 (Hmem e1)); now left.
  - destruct (proj1 (Hmem e1) (or_introl eq_refl)) as [->|[]]. reflexivity.
Qed.

Lemma dict_ok_same_keys_perm db d1 d2 :
  dict_ok db d1 -> dict_ok db d2 ->
  (forall k, In k (keys d1) <-> In k (keys d2)) ->
  Permutation d1 d2.
Proof.
  intros [N1 D1] [N2 D2] Hk.
  assert (Hsub : forall da db', described_by_db db da -> described_by_db db db' ->
            (forall k, In k (keys da) -> In k (keys db')) ->
            forall e, In e da -> In e db').
  { intros da db' Da Db' Hsub [k dsc] He.
    assert (Hin : In k (keys db')) by (apply Hsub, in_map_iff; exists (k, dsc); auto).
    apply in_map_iff in Hin. destruct Hin as ([k' dsc'] & Hk' & He').
    simpl in Hk'. subst k'.
    destruct (Da _ _ He) as (m & Hm & <-).
    destruct (Db' _ _ He') as (m' & Hm' & <-).
    congruence. }
  apply NoDup_Permutation.
  - eapply NoDup_map_inv. exact N1.
  - eapply NoDup_map_inv. exact N2.
  - intros e. split; apply Hsub; trivial; intros k; apply Hk.
Qed.

Lemma StronglySorted_weaken {A} (R R' : A -> A -> Prop) (l : list A) :
  (forall x y, R x y -> R' x y) ->
  StronglySorted R l -> StronglySorted R' l.
Proof.
  intros HR. induction 1 as [|a l S IH F]; constructor; trivial.
  eapply Forall_impl; [|exact F]. intros y. apply HR.
Qed.

Lemma list_sort_ascending (d : dict) :
  StronglySorted (fun x y => (snd x <=? snd y) = true) (list_sort snd d).
Proof.
  eapply StronglySorted_weaken; [|apply list_sort_sorted].
  intros x y. unfold key_le. apply ltb_false_leb.
Qed.

Lemma main_again db a s :
  gui_consistent s -> main db a (fst (main db a s)) = main db a s.
Proof.
  intros Hg. pose proof (main_keeps_consistent db a s Hg) as Hg'.
  remember (main db a s) as r eqn:Hr.
  rewrite main_in_source_order, main_in_order_stages.
  rewrite (clear_images_cleared _ Hg').
  rewrite main_in_source_order, main_in_order_stages in Hr.
  rewrite (clear_images_cleared _ Hg) in Hr.
  cbv zeta in *. cbn [fst] in *.
  destruct a as [h|]; [|now subst r].
  destruct (h =? ""); [now subst r|].
  destruct (person_tbl db h) as [p|]; [|now subst r].
  change (with_all_media (cleared (fst r)) [])
    with (with_all_media (cleared s) []).
  now rewrite <- Hr.
Qed.

(** * The properties of the collection run *)

(** C1.  A run gathers every media handle at most once, however many paths
    (person, citations of names, events, families) lead to it.  Whatever
    the active person and the database, the images on display stand for a
    list of dict entries without a repeated handle; for a person in the
    database the keys of [all_media] are free of duplicates, however the
    run ends.  The description of a handle is the one entered when the
    handle was first met: [process_media] leaves every entry of the dict in
    place and appends entries for new handles only. *)
Theorem media_collected_once db a s :
  gui_consistent s ->
  (exists media_list,
     Forall2 (shows db) media_list (content_box (fst (main db a s))) /\
     NoDup (map fst media_list) /\
     (handles_consistent db -> displayed (fst (main db a s)) = media_list)) /\
  (forall h p,
     present a h -> person_tbl db h = Some p ->
     exists d,
       all_media (fst (main db a s)) = Some d /\
       NoDup (keys d) /\
       (snd (main db a s) = inr tt ->
        Forall2 (shows db) (list_sort snd d) (content_box (fst (main db a s))))) /\
  (forall T (MB : MediaBase T) (gobj : T) s0 d0,
     all_media s0 = Some d0 ->
     exists ext,
       all_media (fst (process_media db gobj s0)) = Some (d0 ++ ext) /\
       forall k, In k (keys ext) -> ~ In k (keys d0)).
Proof.
  intros Hg. split; [|split].
  - assert (Hnone : forall s1 : Gramplet, content_box s1 = [] ->
              exists media_list,
                Forall2 (shows db) media_list (content_box s1) /\
                NoDup (map fst media_list) /\
                (handles_consistent db -> displayed s1 = media_list)).
    { intros s1 H1. exists []. unfold displayed. rewrite H1.
      repeat split; constructor. }
    destruct (main_outcome db a s Hg)
      as [[-> _]|[(h & _ & _ & ->)|(h & p & Ha & Hp)]];
      try (apply Hnone; reflexivity).
    destruct (main_resolved db a h p s Hg Ha Hp)
      as (d & Hok & [(imgs & -> & Hall & _)|(k & h' & -> & _)]);
      [|apply Hnone; reflexivity].
    exists (list_sort snd d). simpl. split; [exact Hall|]. split.
    + eapply Permutation_NoDup; [|apply Hok].
      apply Permutation_map. symmetry. apply list_sort_perm.
    + intros Hc. unfold displayed. now apply (shows_displayed db).
  - intros h p Ha Hp.
    destruct (main_resolved db a h p s Hg Ha Hp)
      as (d & Hok & [(imgs & -> & Hall & _)|(k & h' & -> & _)]);
      exists d; simpl; (split; [reflexivity|]); (split; [apply Hok|]).
    + intros _. exact Hall.
    + discriminate.
  - intros T MB gobj s0 d0 H0.
    destruct (process_media_extends db gobj s0 d0 H0) as (ext & Hs & Hk & _).
    exists ext. rewrite Hs. split; trivial.
Qed.

Lemma media_collected_once_witness :
  exists d,
    all_media (fst (main Sample.db (Some "I1") init)) = Some d /\
    NoDup (keys d) /\ In "M1" (keys d).
Proof.
  destruct (media_collected_once Sample.db (Some "I1") init) as (_ & Hd & _).
  - reflexivity.
  - destruct (Hd "I1" Sample.person_I1) as (d & Hd1 & Hnd & _).
    + split; [reflexivity|discriminate].
    + reflexivity.
    + exists d. repeat split; trivial.
      vm_compute in Hd1. inversion Hd1. simpl. auto.
Defined.

(** The case of the design document: [M1] is attached to the person and to
    the family [F1], and is shown once. *)
Example shared_media_shown_once :
  count_occ string_dec
    (map fst (displayed (fst (main Sample.db (Some "I1") init)))) "M1" = 1.
Proof. vm_compute. reflexivity. Qed.

(** C2.  The images of a run are in ascending order of their description,
    compared as Python compares [str] values (by code point, upper case
    before lower case).  For a run that succeeds for a person, what is shown
    is [list_sort snd d], where [d] is the dict in insertion order, that is
    in order of discovery: a sorted rearrangement of [d] in which the
    entries of equal description keep the order they have in [d]. *)
Theorem output_sorted_by_description db a s :
  gui_consistent s ->
  StronglySorted (fun x y => (x <=? y) = true)
    (map image_label (content_box (fst (main db a s)))) /\
  (forall h p s',
     present a h -> person_tbl db h = Some p ->
     main db a s = (s', inr tt) ->
     exists d,
       all_media s' = Some d /\
       Forall2 (shows db) (list_sort snd d) (content_box s') /\
       StronglySorted (fun x y => (snd x <=? snd y) = true) (list_sort snd d) /\
       Permutation (list_sort snd d) d /\
       (forall k, with_key snd k (list_sort snd d) = with_key snd k d) /\
       (handles_consistent db -> displayed s' = list_sort snd d)).
Proof.
  intros Hg. split.
  - destruct (main_outcome db a s Hg)
      as [[-> _]|[(h & _ & _ & ->)|(h & p & Ha & Hp)]]; try constructor.
    destruct (main_resolved db a h p s Hg Ha Hp)
      as (d & _ & [(imgs & -> & Hall & _)|(k & h' & -> & _)]);
      [|constructor].
    simpl. rewrite (shows_labels _ _ _ Hall).
    eapply StronglySorted_weaken;
      [|apply sorted_map_key, (list_sort_sorted snd d)].
    intros x y. unfold key_le. apply ltb_false_leb.
  - intros h p s' Ha Hp Hrun.
    destruct (main_success db a h p s s' Hg Ha Hp Hrun)
      as (d & Hok & Hs' & Hall & _).
    exists d. split; [rewrite Hs'; reflexivity|].
    split; [exact Hall|]. split; [apply list_sort_ascending|].
    split; [apply list_sort_perm|].
    split; [intros k; apply list_sort_stable|].
    intros Hc. unfold displayed. now apply (shows_displayed db).
Qed.

Lemma output_sorted_by_description_witness :
  map image_label (content_box (fst (main Sample.db (Some "I1") init))) =
    ["Apple"; "Apple"; "Mango"; "Zebra"] /\
  StronglySorted (fun x y => (x <=? y) = true)
    (map image_label (content_box (fst (main Sample.db (Some "I1") init)))).
Proof.
  split.
  - vm_compute. reflexivity.
  - apply (output_sorted_by_description Sample.db (Some "I1") init).
    reflexivity.
Defined.

(** The sample run: [M2] and [M4] are both described as "Apple" and stay in
    the order in which they were found. *)
Example sample_run_sorted :
  all_media (fst (main Sample.db (Some "I1") init)) =
    Some [("M1", "Zebra"); ("M2", "Apple"); ("M3", "Mango"); ("M4", "Apple")] /\
  displayed (fst (main Sample.db (Some "I1") init)) =
    [("M2", "Apple"); ("M4", "Apple"); ("M3", "Mango"); ("M1", "Zebra")].
Proof. split; vm_compute; reflexivity. Qed.

(** The comparison is case-sensitive: "Zebra" sorts before "apple". *)
Example sort_case_sensitive :
  list_sort snd [("a", "apple"); ("b", "Zebra"); ("c", "Mango")] =
  [("c", "Mango"); ("b", "Zebra"); ("a", "apple")].
Proof. reflexivity. Qed.

(** C3.  For a person in the database, the handles gathered by a run that
    succeeds are exactly those of [collected_sources]: media of the person,
    of citations of the person, of the primary name, of the alternate
    names and of the person's events, and for each family its media and the
    media of citations of its events.  The run succeeds whenever no
    reference on these paths is dangling. *)
Theorem collected_media_are_the_sources db a h p s :
  gui_consistent s -> present a h -> person_tbl db h = Some p ->
  (forall s', main db a s = (s', inr tt) ->
     exists d,
       all_media s' = Some d /\
       Forall2 (shows db) (list_sort snd d) (content_box s') /\
       (forall m, In m (keys d) <-> collected_sources db p m) /\
       (forall m, In m (map fst (list_sort snd d)) <-> collected_sources db p m)) /\
  ((forall k h', ~ dangling db p k h') -> snd (main db a s) = inr tt).
Proof.
  intros Hg Ha Hp. split.
  - intros s' Hrun.
    destruct (main_success db a h p s s' Hg Ha Hp Hrun)
      as (d & Hok & Hs' & Hall & _ & Hin).
    exists d. split; [rewrite Hs'; reflexivity|].
    split; [exact Hall|]. split; [exact Hin|].
    intros m. rewrite <- Hin. unfold keys. split; apply Permutation_in;
      apply Permutation_map; [|symmetry]; apply list_sort_perm.
  - intros Hnd.
    destruct (main_resolved db a h p s Hg Ha Hp)
      as (d & _ & [(imgs & -> & _)|(k & h' & _ & Hd & _)]); [reflexivity|].
    elim (Hnd k h' Hd).
Qed.

Lemma collected_media_are_the_sources_witness :
  snd (main Sample.db (Some "I1") init) = inr tt /\
  collected_sources Sample.db Sample.person_I1 "M3".
Proof.
  destruct (collected_media_are_the_sources Sample.db (Some "I1") "I1"
              Sample.person_I1 init) as [Hset Hrun].
  - reflexivity.
  - split; [reflexivity|discriminate].
  - reflexivity.
  - split; [vm_compute; reflexivity|].
    destruct (Hset (fst (main Sample.db (Some "I1") init)))
      as (d & Hd & _ & Hin & _).
    + vm_compute. reflexivity.
    + apply Hin. vm_compute in Hd. inversion Hd. simpl. auto.
Defined.

(** A person with nothing attached has an empty gallery. *)
Example no_media_empty_result :
  main Sample.db (Some "I3") init =
  ({| content_box := []; image_list := []; all_media := Some [] |}, inr tt).
Proof. vm_compute. reflexivity. Qed.

(** C4, as the code has it.  An active handle that passes the test
    [if not active_handle] but is not in the person table makes
    [get_person_from_handle] raise: the run ends in [HandleError] for that
    handle, after the images have been cleared and before [all_media] is
    assigned. *)
Theorem unresolved_person_raises db a h s :
  gui_consistent s -> present a h -> person_tbl db h = None ->
  main db a s = (cleared s, inl (HandleError PersonK h)).
Proof.
  intros Hg Ha Hp. rewrite main_in_source_order.
  now apply main_in_order_unresolved.
Qed.

Lemma unresolved_person_raises_witness :
  main Sample.db (Some "I7") init = (cleared init, inl (HandleError PersonK "I7")).
Proof.
  apply (unresolved_person_raises Sample.db (Some "I7") "I7" init).
  - reflexivity.
  - split; [reflexivity|discriminate].
  - reflexivity.
Defined.

(** C4, as stated, fails: the handle ["I7"] is present and not in the
    person table of the sample database, and the run does not return. *)
Lemma unresolved_person_no_empty_result :
  present (Some "I7") "I7" /\ person_tbl Sample.db "I7" = None /\
  snd (main Sample.db (Some "I7") init) <> inr tt.
Proof.
  split; [split; [reflexivity|discriminate]|].
  split; [reflexivity|]. vm_compute. discriminate.
Qed.

(** C5.  Without an active person ([None], or the empty handle) the run
    returns normally with nothing on display. *)
Theorem absent_person_empty_result db a s :
  gui_consistent s -> a = None \/ a = Some "" ->
  main db a s = (cleared s, inr tt) /\
  displayed (fst (main db a s)) = [].
Proof.
  intros Hg Ha. rewrite main_in_source_order.
  rewrite (main_in_order_absent _ _ _ _ Hg Ha). auto.
Qed.

Lemma absent_person_empty_result_witness :
  main Sample.db None (fst (main Sample.db (Some "I1") init)) =
    (cleared (fst (main Sample.db (Some "I1") init)), inr tt) /\
  displayed (fst (main Sample.db None (fst (main Sample.db (Some "I1") init)))) = [].
Proof.
  apply (absent_person_empty_result Sample.db None
           (fst (main Sample.db (Some "I1") init))).
  - vm_compute. reflexivity.
  - left. reflexivity.
Defined.

(** ** Applying the rules in another order *)

Lemma sort_same_descriptions (d1 d2 : dict) :
  Permutation d1 d2 ->
  map snd (list_sort snd d1) = map snd (list_sort snd d2).
Proof.
  intros P. apply sorted_strings_perm_eq.
  - apply sorted_map_key, list_sort_sorted.
  - apply sorted_map_key, list_sort_sorted.
  - apply Permutation_map.
    rewrite (list_sort_perm snd d1), (list_sort_perm snd d2). exact P.
Qed.

Lemma sort_distinct_descriptions (d1 d2 : dict) :
  Permutation d1 d2 -> NoDup (map snd d1) ->
  list_sort snd d1 = list_sort snd d2.
Proof.
  intros P N1.
  assert (N2 : NoDup (map snd d2)).
  { eapply Permutation_NoDup; [|exact N1]. now apply Permutation_map. }
  apply (stable_sort_unique snd).
  - apply list_sort_sorted.
  - apply list_sort_sorted.
  - intros k. rewrite !list_sort_stable.
    apply with_key_unique_keys; trivial.
    intros e. split; apply Permutation_in; [|symmetry]; exact P.
Qed.

Lemma orders_agree db (o1 o2 : list Rule) a h p s :
  (forall r, In r o1 <-> In r o2) ->
  gui_consistent s -> present a h -> person_tbl db h = Some p ->
  (snd (main_in_order db o1 a s) = inr tt <->
   snd (main_in_order db o2 a s) = inr tt) /\
  (snd (main_in_order db o1 a s) = inr tt ->
   exists d1 d2,
     all_media (fst (main_in_order db o1 a s)) = Some d1 /\
     all_media (fst (main_in_order db o2 a s)) = Some d2 /\
     Permutation d1 d2 /\
     Forall2 (shows db) (list_sort snd d1)
       (content_box (fst (main_in_order db o1 a s))) /\
     Forall2 (shows db) (list_sort snd d2)
       (content_box (fst (main_in_order db o2 a s)))).
Proof.
  intros Ho Hg Ha Hp.
  destruct (main_in_order_resolved db o1 a h p s Hg Ha Hp)
    as (d1 & Hok1 & Hsrc1 & C1).
  destruct (main_in_order_resolved db o2 a h p s Hg Ha Hp)
    as (d2 & Hok2 & Hsrc2 & C2).
  destruct C1 as [(Hnd1 & Hin1 & imgs1 & Hrun1 & Hall1)|(k1 & h1 & Hd1 & Hrun1)];
    destruct C2 as [(Hnd2 & Hin2 & imgs2 & Hrun2 & Hall2)|(k2 & h2 & Hd2 & Hrun2)];
    rewrite Hrun1, Hrun2; simpl.
  - split; [tauto|]. intros _. exists d1, d2. repeat (split; trivial).
    apply (dict_ok_same_keys_perm db); trivial.
    intros k. split; intros Hk.
    + apply Hin2. destruct (Hsrc1 k Hk) as (r & Hr & Hs).
      exists r. split; trivial. now apply Ho.
    + apply Hin1. destruct (Hsrc2 k Hk) as (r & Hr & Hs).
      exists r. split; trivial. now apply Ho.
  - exfalso. destruct Hd2 as (r & Hr & Hd). apply (Hnd1 k2 h2).
    exists r. split; trivial. now apply Ho.
  - exfalso. destruct Hd1 as (r & Hr & Hd). apply (Hnd2 k1 h1).
    exists r. split; trivial. now apply Ho.
  - split; [split; discriminate|discriminate].
Qed.

(** C6, as the code has it.  A run that applies the six rules in a permuted
    order succeeds exactly when [main] does, and then gathers the same
    (identifier, description) pairs and shows the same sequence of
    descriptions.  The images themselves are the same, in the same order,
    whenever the gathered descriptions are pairwise distinct. *)
Theorem rule_order_up_to_ties db order a h p s :
  Permutation order source_order ->
  gui_consistent s -> present a h -> person_tbl db h = Some p ->
  (snd (main db a s) = inr tt <-> snd (main_in_order db order a s) = inr tt) /\
  (snd (main db a s) = inr tt ->
   exists d1 d2,
     all_media (fst (main db a s)) = Some d1 /\
     all_media (fst (main_in_order db order a s)) = Some d2 /\
     Permutation d1 d2 /\
     map snd (list_sort snd d1) = map snd (list_sort snd d2) /\
     map image_label (content_box (fst (main db a s))) =
       map image_label (content_box (fst (main_in_order db order a s))) /\
     (NoDup (map snd d1) ->
      list_sort snd d1 = list_sort snd d2 /\
      content_box (fst (main db a s)) =
        content_box (fst (main_in_order db order a s)))).
Proof.
  intros Hperm Hg Ha Hp. rewrite !main_in_source_order.
  destruct (orders_agree db source_order order a h p s) as [Hiff Hsame]; trivial.
  { intros r. split; apply Permutation_in; [symmetry|]; exact Hperm. }
  split; [exact Hiff|]. intros Hrun.
  destruct (Hsame Hrun) as (d1 & d2 & H1 & H2 & P & Hall1 & Hall2).
  exists d1, d2. split; [exact H1|]. split; [exact H2|]. split; [exact P|].
  split; [now apply sort_same_descriptions|]. split.
  - rewrite (shows_labels _ _ _ Hall1), (shows_labels _ _ _ Hall2).
    now apply sort_same_descriptions.
  - intros Hnd. pose proof (sort_distinct_descriptions d1 d2 P Hnd) as Heq.
    split; [exact Heq|]. rewrite <- Heq in Hall2.
    eapply shows_all_functional; eassumption.
Qed.

Lemma family_first_permutation : Permutation Sample.family_first source_order.
Proof. apply (Permutation_cons_append (removelast source_order) Families). Qed.

Lemma rule_order_up_to_ties_witness :
  map image_label
    (content_box (fst (main_in_order Sample.db Sample.family_first (Some "I1") init))) =
  ["Apple"; "Apple"; "Mango"; "Zebra"].
Proof.
  destruct (rule_order_up_to_ties Sample.db Sample.family_first (Some "I1") "I1"
              Sample.person_I1 init) as [_ Hsame].
  - exact family_first_permutation.
  - reflexivity.
  - split; [reflexivity|discriminate].
  - reflexivity.
  - destruct Hsame as (d1 & d2 & _ & _ & _ & _ & Hlabels & _).
    + vm_compute. reflexivity.
    + rewrite <- Hlabels. vm_compute. reflexivity.
Defined.

(** C6, as stated, fails: with the families first, [M4] is found before
    [M2]; both are described as "Apple", and the two change places in the
    output. *)
Lemma rule_order_changes_output :
  Permutation Sample.family_first source_order /\
  displayed (fst (main Sample.db (Some "I1") init)) =
    [("M2", "Apple"); ("M4", "Apple"); ("M3", "Mango"); ("M1", "Zebra")] /\
  displayed (fst (main_in_order Sample.db Sample.family_first (Some "I1") init)) =
    [("M4", "Apple"); ("M2", "Apple"); ("M3", "Mango"); ("M1", "Zebra")] /\
  displayed (fst (main_in_order Sample.db Sample.family_first (Some "I1") init)) <>
  displayed (fst (main Sample.db (Some "I1") init)).
Proof.
  split; [exact family_first_permutation|].
  split; [vm_compute; reflexivity|].
  split; [vm_compute; reflexivity|].
  vm_compute. discriminate.
Qed.

(** C7.  When a citation, event, family or media reference on the paths of
    the traversal does not resolve, the run does not return: it ends in the
    [HandleError] of a dangling reference, the one it meets first, with no
    image on display.  Nothing catches the error and no reference is
    skipped. *)
Theorem dangling_reference_raises db a h p s k0 h0 :
  gui_consistent s -> present a h -> person_tbl db h = Some p ->
  dangling db p k0 h0 ->
  exists k h' d,
    main db a s =
    ({| content_box := []; image_list := []; all_media := Some d |},
     inl (HandleError k h')) /\
    dangling db p k h' /\ unresolved db k h'.
Proof.
  intros Hg Ha Hp Hd.
  destruct (main_resolved db a h p s Hg Ha Hp)
    as (d & _ & [(imgs & _ & _ & Hnd & _)|(k & h' & Hrun & Hk & Hu)]).
  - elim (Hnd k0 h0 Hd).
  - exists k, h', d. auto.
Qed.

Lemma dangling_reference_raises_witness :
  exists k h' d,
    main Sample.db (Some "I2") init =
    ({| content_box := []; image_list := []; all_media := Some d |},
     inl (HandleError k h')) /\
    dangling Sample.db Sample.person_I2 k h' /\ unresolved Sample.db k h'.
Proof.
  apply (dangling_reference_raises Sample.db (Some "I2") "I2" Sample.person_I2
           init FamilyK "F9").
  - reflexivity.
  - split; [reflexivity|discriminate].
  - reflexivity.
  - exists Families. left. repeat split. left. reflexivity.
Defined.

(** The sample run for the person with the missing family: the media found
    before the failure stay in the dict, nothing is shown. *)
Example missing_family_run :
  main Sample.db (Some "I2") init =
  ({| content_box := []; image_list := [];
      all_media := Some [("M2", "Apple")] |},
   inl (HandleError FamilyK "F9")).
Proof. vm_compute. reflexivity. Qed.

(** C8.  A second run for the same active person on the same database ends
    exactly where the first one did: same outcome, same images in the same
    order, same dict. *)
Theorem main_twice_same_output db a s :
  gui_consistent s ->
  main db a (fst (main db a s)) = main db a s /\
  displayed (fst (main db a (fst (main db a s)))) = displayed (fst (main db a s)).
Proof.
  intros Hg. rewrite (main_again db a s Hg). auto.
Qed.

Lemma main_twice_same_output_witness :
  main Sample.db (Some "I1") (fst (main Sample.db (Some "I1") init)) =
  main Sample.db (Some "I1") init.
Proof.
  apply (main_twice_same_output Sample.db (Some "I1") init). reflexivity.
Defined.

(** C9.  The outcome of a run and the images it leaves on display depend on
    the database and the active person only, not on the state the gramplet
    was in: not on the images shown before, which [clear_images] removes,
    and not on the dict of an earlier run, which is replaced by an empty one
    before it is read.  In particular it does not matter for which person,
    or on which database, the runs before were made. *)
Theorem output_depends_on_person_and_db_only db a s1 s2 :
  gui_consistent s1 -> gui_consistent s2 ->
  (snd (main db a s1) = snd (main db a s2) /\
   content_box (fst (main db a s1)) = content_box (fst (main db a s2)) /\
   image_list (fst (main db a s1)) = image_list (fst (main db a s2)) /\
   displayed (fst (main db a s1)) = displayed (fst (main db a s2))) /\
  (forall db1 a1 db2 a2,
     snd (main db a (fst (main db1 a1 s1))) =
       snd (main db a (fst (main db2 a2 s2))) /\
     displayed (fst (main db a (fst (main db1 a1 s1)))) =
       displayed (fst (main db a (fst (main db2 a2 s2))))).
Proof.
  intros H1 H2. split.
  - destruct (main_forgets db a s1 s2 H1 H2) as (Hr & Hc & Hi).
    unfold displayed. rewrite Hc. auto.
  - intros db1 a1 db2 a2.
    destruct (main_forgets db a (fst (main db1 a1 s1)) (fst (main db2 a2 s2)))
      as (Hr & Hc & Hi); try now apply main_keeps_consistent.
    unfold displayed. rewrite Hc. auto.
Qed.

Lemma output_depends_on_person_and_db_only_witness :
  displayed (fst (main Sample.db (Some "I1") (fst (main Sample.db (Some "I2") init)))) =
  displayed (fst (main Sample.db (Some "I1") init)).
Proof.
  destruct (output_depends_on_person_and_db_only Sample.db (Some "I1")
              (fst (main Sample.db (Some "I2") init)) init)
    as [(_ & _ & _ & Hd) _].
  - vm_compute. reflexivity.
  - reflexivity.
  - exact Hd.
Defined.

(** C10.  Every description in the dict of a run is the description of the
    media object that its key resolves to in the database; [process_media]
    appends no other kind of entry, whatever object holds the reference.
    So, on one database, a handle has the same description in every dict,
    whichever run and whichever path entered it. *)
Theorem descriptions_come_from_db db a h p s :
  gui_consistent s -> present a h -> person_tbl db h = Some p ->
  (exists d,
     all_media (fst (main db a s)) = Some d /\ described_by_db db d /\
     forall a' h' p' s',
       gui_consistent s' -> present a' h' -> person_tbl db h' = Some p' ->
       exists d',
         all_media (fst (main db a' s')) = Some d' /\
         forall k x y, In (k, x) d -> In (k, y) d' -> x = y) /\
  (forall T (MB : MediaBase T) (gobj : T) s0 d0,
     all_media s0 = Some d0 ->
     exists ext,
       all_media (fst (process_media db gobj s0)) = Some (d0 ++ ext) /\
       described_by_db db ext).
Proof.
  assert (Hdict : forall a h p s,
            gui_consistent s -> present a h -> person_tbl db h = Some p ->
            exists d, all_media (fst (main db a s)) = Some d /\
                      described_by_db db d).
  { intros a0 h0 p0 s0 Hg Ha Hp.
    destruct (main_resolved db a0 h0 p0 s0 Hg Ha Hp)
      as (d & Hok & [(imgs & -> & _)|(k & h' & -> & _)]);
      exists d; split; trivial; apply Hok. }
  intros Hg Ha Hp. split.
  - destruct (Hdict a h p s Hg Ha Hp) as (d & Hd & Hdesc).
    exists d. split; [exact Hd|]. split; [exact Hdesc|].
    intros a' h' p' s' Hg' Ha' Hp'.
    destruct (Hdict a' h' p' s' Hg' Ha' Hp') as (d' & Hd' & Hdesc').
    exists d'. split; [exact Hd'|].
    intros k x y Hx Hy.
    destruct (Hdesc _ _ Hx) as (m & Hm & <-).
    destruct (Hdesc' _ _ Hy) as (m' & Hm' & <-).
    congruence.
  - intros T MB gobj s0 d0 H0.
    destruct (process_media_extends db gobj s0 d0 H0) as (ext & Hs & _ & Hd).
    exists ext. rewrite Hs. split; trivial.
Qed.

Lemma descriptions_come_from_db_witness :
  exists d,
    all_media (fst (main Sample.db (Some "I1") init)) = Some d /\
    described_by_db Sample.db d.
Proof.
  destruct (descriptions_come_from_db Sample.db (Some "I1") "I1"
              Sample.person_I1 init) as [(d & Hd & Hdesc & _) _].
  - reflexivity.
  - split; [reflexivity|discriminate].
  - reflexivity.
  - exists d. split; trivial.
Defined.

(** * Further properties of the code *)

(** ** Loops *)

Lemma for_app {A} (l1 l2 : list A) (body : A -> M unit) s :
  for_ (l1 ++ l2) body s = (for_ l1 body ;; for_ l2 body) s.
Proof.
  revert s. induction l1 as [|x l1 IH]; intros s; simpl.
  - reflexivity.
  - unfold bind. destruct (body x s) as [s1 [e|[]]]; [reflexivity|].
    rewrite IH. reflexivity.
Qed.

Lemma for_concat {A} (ls : list (list A)) (body : A -> M unit) s :
  for_ (List.concat ls) body s = for_ ls (fun l => for_ l body) s.
Proof.
  revert s. induction ls as [|l ls IH]; intros s; simpl; trivial.
  rewrite for_app. unfold bind.
  destruct (for_ l body s) as [s1 [e|[]]]; trivial.
Qed.

Lemma for_ext {A} (xs : list A) (body body' : A -> M unit) :
  (forall x, In x xs -> forall s, body x s = body' x s) ->
  forall s, for_ xs body s = for_ xs body' s.
Proof.
  induction xs as [|x xs IH]; intros H s; simpl; trivial.
  unfold bind. rewrite (H x (or_introl eq_refl)).
  destruct (body' x s) as [s1 [e|[]]]; trivial.
  apply IH. intros y Hy. apply H. now right.
Qed.

Lemma bind_ext {A B} (c c' : M A) (k k' : A -> M B) s :
  c s = c' s -> (forall a s', k a s' = k' a s') ->
  bind c k s = bind c' k' s.
Proof.
  intros Hc Hk. unfold bind. rewrite Hc.
  destruct (c' s) as [s1 [e|a]]; [reflexivity|apply Hk].
Qed.

(** ** [clear_images] *)





(** ** [process_media] *)

Lemma media_round_known db h s d :
  all_media s = Some d -> In h (keys d) ->
  (d <- get_all_media ;;
   if negb (dict_contains h d) then
     media <- get_media_from_handle db h ;;
     d <- get_all_media ;;
     set_all_media (dict_setitem h (get_description media) d)
   else ret tt) s = (s, inr tt).
Proof.
  intros Ha Hin. unfold bind, get_all_media. rewrite Ha.
  apply dict_contains_In in Hin. rewrite Hin. reflexivity.
Qed.

(** X2.  [process_media] looks up no handle that is already a key of the
    dict: when all the media references of the object are known, it returns
    with the state untouched, whatever the database holds for them, even
    nothing. *)
Theorem process_media_known_handles {T} `{MediaBase T} db (gobj : T) s d :
  all_media s = Some d ->
  (forall h, In h (media_handles gobj) -> In h (keys d)) ->
  process_media db gobj s = (s, inr tt).
Proof.
  unfold process_media, media_handles.
  induction (get_media_list gobj) as [|mr l IH]; intros Ha Hin.
  - reflexivity.
  - cbn [for_]. unfold bind at 1. cbv beta zeta.
    rewrite (media_round_known db (get_reference_handle mr) s d Ha)
      by (apply Hin; now left).
    apply IH; trivial. intros h Hh. apply Hin. now right.
Qed.

Lemma process_media_known_handles_witness :
  process_media (mkDb (fun _ => None) (fun _ => None) (fun _ => None)
                   (fun _ => None) (fun _ => None))
    Sample.person_I1
    {| content_box := []; image_list := []; all_media := Some [("M1", "old")] |} =
  ({| content_box := []; image_list := []; all_media := Some [("M1", "old")] |},
   inr tt).
Proof.
  apply (process_media_known_handles _ Sample.person_I1 _ [("M1", "old")]).
  - reflexivity.
  - intros h [<-|[]]. now left.
Defined.

Lemma media_round_success db h s s' d :
  all_media s = Some d ->
  (d <- get_all_media ;;
   if negb (dict_contains h d) then
     media <- get_media_from_handle db h ;;
     d <- get_all_media ;;
     set_all_media (dict_setitem h (get_description media) d)
   else ret tt) s = (s', inr tt) ->
  exists d', all_media s' = Some d' /\ In h (keys d') /\
             forall k, In k (keys d) -> In k (keys d').
Proof.
  intros Ha. unfold bind, get_all_media. rewrite Ha.
  destruct (dict_contains h d) eqn:E; simpl.
  - intros Hr. inversion Hr; subst s'. exists d.
    apply dict_contains_In in E. auto.
  - apply dict_contains_false in E. unfold get_media_from_handle, lookup.
    destruct (media_tbl db h) as [m|]; simpl; [|discriminate].
    rewrite Ha. simpl. rewrite dict_setitem_fresh by exact E.
    intros Hr. inversion Hr; subst s'. simpl.
    exists (d ++ [(h, get_description m)]). split; trivial.
    rewrite keys_app. simpl. split.
    + apply in_app_iff. right. now left.
    + intros k Hk. apply in_app_iff. now left.
Qed.

Lemma media_rounds_success db (hs : list MediaRef) : forall s s' d,
  all_media s = Some d ->
  for_ hs (fun media_ref =>
    let media_handle := get_reference_handle media_ref in
    d <- get_all_media ;;
    if negb (dict_contains media_handle d) then
      media <- get_media_from_handle db media_handle ;;
      d <- get_all_media ;;
      set_all_media (dict_setitem media_handle (get_description media) d)
    else ret tt) s = (s', inr tt) ->
  exists d', all_media s' = Some d' /\
             (forall h, In h (map get_reference_handle hs) -> In h (keys d')) /\
             forall k, In k (keys d) -> In k (keys d').
Proof.
  induction hs as [|mr hs IH]; intros s s' d Ha; simpl.
  - intros Hr. inversion Hr; subst s'. exists d. repeat split; tauto.
  - unfold bind at 1.
    match goal with |- context [match ?c s with _ => _ end] =>
      destruct (c s) as [s1 [e|[]]] eqn:E1 end; [discriminate|].
    destruct (media_round_success db _ s s1 d Ha E1) as (d1 & Ha1 & Hin1 & Hsub1).
    intros Hr.
    destruct (IH s1 s' d1 Ha1 Hr) as (d' & Ha' & Hin' & Hsub').
    exists d'. split; trivial. split.
    + intros h [<-|Hh]; auto.
    + auto.
Qed.

(** X3.  [process_media] is idempotent: after a pass that returned, a second
    pass over the same object returns too and changes nothing. *)
Theorem process_media_twice {T} `{MediaBase T} db (gobj : T) s s1 :
  process_media db gobj s = (s1, inr tt) ->
  process_media db gobj s1 = (s1, inr tt).
Proof.
  intros Hrun. destruct (all_media s) as [d|] eqn:Ha.
  - destruct (media_rounds_success db (get_media_list gobj) s s1 d Ha Hrun)
      as (d1 & Ha1 & Hin & _).
    apply (process_media_known_handles db gobj s1 d1 Ha1). exact Hin.
  - unfold process_media in *.
    destruct (get_media_list gobj) as [|mr l]; simpl in *.
    + inversion Hrun. reflexivity.
    + unfold bind, get_all_media in Hrun. rewrite Ha in Hrun. discriminate.
Qed.

Lemma process_media_twice_witness :
  let s0 := {| content_box := []; image_list := []; all_media := Some [] |} in
  let s1 := fst (process_media Sample.db Sample.person_I1 s0) in
  all_media s1 = Some [("M1", "Zebra")] /\
  process_media Sample.db Sample.person_I1 s1 = (s1, inr tt).
Proof.
  intros s0 s1. split; [reflexivity|].
  apply (process_media_twice Sample.db Sample.person_I1 s0 s1).
  reflexivity.
Defined.

(** X4.  Before [main] has assigned [self.all_media], [process_media]
    raises [AttributeError] at the first media reference, with the state
    untouched; an object without media references passes. *)
Theorem process_media_before_main {T} `{MediaBase T} db (gobj : T) s :
  all_media s = None ->
  process_media db gobj s =
  (s, match get_media_list gobj with
      | [] => inr tt
      | _ :: _ => inl (AttributeError "all_media")
      end).
Proof.
  intros Ha. unfold process_media.
  destruct (get_media_list gobj) as [|mr l]; simpl; trivial.
  unfold bind, get_all_media. rewrite Ha. reflexivity.
Qed.

Lemma process_media_before_main_witness :
  process_media Sample.db Sample.person_I1 init =
    (init, inl (AttributeError "all_media")) /\
  process_media Sample.db Sample.person_I3 init = (init, inr tt).
Proof.
  split.
  - pose proof (process_media_before_main Sample.db Sample.person_I1 init) as H.
    apply H. reflexivity.
  - reflexivity.
Defined.

(** ** The gathering methods and the display *)

Lemma keeps_display_ret {A} (a : A) : keeps_display (ret a).
Proof. intros s. simpl. auto. Qed.

Lemma keeps_display_bind {A B} (c : M A) (k : A -> M B) :
  keeps_display c -> (forall a, keeps_display (k a)) ->
  keeps_display (bind c k).
Proof.
  intros Hc Hk s. unfold bind. destruct (Hc s) as [H1 H2].
  destruct (c s) as [s1 [e|a]]; simpl in *; auto.
  destruct (Hk a s1) as [H3 H4]. split; congruence.
Qed.

Lemma keeps_display_for {A} (xs : list A) (body : A -> M unit) :
  (forall x, keeps_display (body x)) -> keeps_display (for_ xs body).
Proof.
  intros H. induction xs as [|x xs IH]; simpl.
  - apply keeps_display_ret.
  - apply keeps_display_bind; auto.
Qed.

Lemma keeps_display_lookup {A} kind (tbl : handle -> option A) h :
  keeps_display (lookup kind tbl h).
Proof. intros s. unfold lookup. destruct (tbl h); simpl; auto. Qed.

Lemma keeps_display_get_all_media : keeps_display get_all_media.
Proof. intros s. unfold get_all_media. destruct (all_media s); simpl; auto. Qed.

Lemma keeps_display_set_all_media d : keeps_display (set_all_media d).
Proof. intros s. simpl. auto. Qed.

Lemma process_media_keeps_display {T} `{MediaBase T} db (gobj : T) :
  keeps_display (process_media db gobj).
Proof.
  unfold process_media. apply keeps_display_for. intros mr. cbv zeta.
  apply keeps_display_bind; [apply keeps_display_get_all_media|].
  intros d. destruct (negb (dict_contains (get_reference_handle mr) d)).
  - apply keeps_display_bind; [apply keeps_display_lookup|]. intros m.
    apply keeps_display_bind; [apply keeps_display_get_all_media|].
    intros d'. apply keeps_display_set_all_media.
  - apply keeps_display_ret.
Qed.

Lemma process_citations_keeps_display {T} `{CitationBase T} db (gobj : T) :
  keeps_display (process_citations db gobj).
Proof.
  unfold process_citations. apply keeps_display_for. intros ch.
  apply keeps_display_bind; [apply keeps_display_lookup|].
  intros cit. apply process_media_keeps_display.
Qed.

Lemma process_events_keeps_display {T} `{EventRefBase T} db (gobj : T) :
  keeps_display (process_events db gobj).
Proof.
  unfold process_events. apply keeps_display_for. intros er. cbv zeta.
  apply keeps_display_bind; [apply keeps_display_lookup|].
  intros ev. apply process_citations_keeps_display.
Qed.

(** X5.  Gathering never touches what is shown: [process_media],
    [process_citations] and [process_events] leave the children of the box
    and [image_list] as they are, from any state and whether they return or
    raise. *)
Theorem gathering_keeps_display db :
  (forall T (MB : MediaBase T) (gobj : T),
     keeps_display (process_media db gobj)) /\
  (forall T (CB : CitationBase T) (gobj : T),
     keeps_display (process_citations db gobj)) /\
  (forall T (EB : EventRefBase T) (gobj : T),
     keeps_display (process_events db gobj)).
Proof.
  split; [|split]; intros T I gobj.
  - apply process_media_keeps_display.
  - apply process_citations_keeps_display.
  - apply process_events_keeps_display.
Qed.

(** ** Citations and events are transparent *)

Lemma for_lookup_resolved {A} kind (tbl : handle -> option A)
    (hs : list handle) (xs : list A) (body : A -> M unit) :
  Forall2 (fun h x => tbl h = Some x) hs xs ->
  forall s,
    for_ hs (fun h => x <- lookup kind tbl h ;; body x) s = for_ xs body s.
Proof.
  induction 1 as [|h x hs xs Hh _ IH]; intros s; cbn [for_]; trivial.
  apply bind_ext; [|intros _ s'; apply IH].
  unfold bind, lookup. rewrite Hh. reflexivity.
Qed.

(** X6.  When the citations of an object all resolve, [process_citations]
    does what [process_media] does on one object carrying the media
    references of these citations, one citation after the other: same
    state, same outcome. *)
Theorem process_citations_flat {T} `{CitationBase T} db (gobj : T)
    (cits : list Citation) s :
  Forall2 (fun ch cit => citation_tbl db ch = Some cit)
    (get_citation_list gobj) cits ->
  process_citations db gobj s =
  process_media db
    {| citation_media_list := List.concat (map citation_media_list cits) |} s.
Proof.
  intros Hres. unfold process_citations, get_citation_from_handle.
  rewrite (for_lookup_resolved _ _ _ _ _ Hres).
  unfold process_media at 2.
  cbn [get_media_list Citation_media citation_media_list].
  rewrite for_concat. clear Hres.
  revert s. induction cits as [|cit cits IH]; intros s; cbn [for_ map]; trivial.
  apply bind_ext; [reflexivity|intros _ s'; apply IH].
Qed.

Lemma process_citations_flat_witness :
  process_citations Sample.db
    {| name_citation_list := ["C1"; "C2"; "C3"] |}
    {| content_box := []; image_list := []; all_media := Some [] |} =
  process_media Sample.db
    {| citation_media_list :=
         [Sample.mref "M2"; Sample.mref "M1"; Sample.mref "M3"] |}
    {| content_box := []; image_list := []; all_media := Some [] |}.
Proof.
  apply (process_citations_flat Sample.db
           {| name_citation_list := ["C1"; "C2"; "C3"] |}
           [ {| citation_media_list := [Sample.mref "M2"] |};
             {| citation_media_list := [Sample.mref "M1"] |};
             {| citation_media_list := [Sample.mref "M3"] |} ]).
  repeat constructor.
Defined.

(** X7.  When the events an object refers to all resolve, [process_events]
    does what [process_citations] does on one object carrying the citations
    of these events, one event after the other. *)
Theorem process_events_flat {T} `{EventRefBase T} db (gobj : T)
    (evs : list Event) s :
  Forall2 (fun er ev => event_tbl db (get_reference_handle er) = Some ev)
    (get_event_ref_list gobj) evs ->
  process_events db gobj s =
  process_citations db
    {| event_citation_list := List.concat (map event_citation_list evs) |} s.
Proof.
  intros Hres. unfold process_events, get_event_from_handle.
  unfold process_citations at 2.
  cbn [get_citation_list Event_citations event_citation_list].
  rewrite for_concat. revert s.
  induction Hres as [|er ev ers evs Hh _ IH]; intros s; cbn [for_ map]; trivial.
  apply bind_ext; [|intros _ s'; apply IH].
  cbv zeta. unfold bind, lookup. rewrite Hh. reflexivity.
Qed.

Lemma process_events_flat_witness :
  process_events Sample.db
    {| family_media_list := [];
       family_event_ref_list := [Sample.eref "E1"; Sample.eref "E2"] |}
    {| content_box := []; image_list := []; all_media := Some [] |} =
  process_citations Sample.db {| event_citation_list := ["C3"; "C1"] |}
    {| content_box := []; image_list := []; all_media := Some [] |}.
Proof.
  apply (process_events_flat Sample.db
           {| family_media_list := [];
              family_event_ref_list := [Sample.eref "E1"; Sample.eref "E2"] |}
           [ {| event_citation_list := ["C3"] |};
             {| event_citation_list := ["C1"] |} ]).
  repeat constructor.
Defined.

(** X8.  [process_citations] stops at the first citation that does not
    resolve: what the citations before it gave stays in the dict, the
    error names that citation, and the citations after it are not looked
    at.  An error met before that citation is passed on as it is. *)
Theorem process_citations_stops_at_unresolved {T} `{CitationBase T} db
    (gobj : T) (pre post : list handle) (c : handle) s :
  get_citation_list gobj = pre ++ c :: post ->
  citation_tbl db c = None ->
  process_citations db gobj s =
  match process_citations db {| name_citation_list := pre |} s with
  | (s1, inr _) => (s1, inl (HandleError CitationK c))
  | (s1, inl e) => (s1, inl e)
  end.
Proof.
  intros Hl Hc. unfold process_citations. rewrite Hl.
  cbn [get_citation_list Name_citations name_citation_list].
  rewrite for_app. unfold bind at 1.
  match goal with |- context [match ?c0 s with _ => _ end] =>
    destruct (c0 s) as [s1 [e|[]]] end; [reflexivity|].
  cbn [for_]. unfold bind, get_citation_from_handle, lookup.
  rewrite Hc. reflexivity.
Qed.

Lemma process_citations_stops_at_unresolved_witness :
  process_citations Sample.db
    {| name_citation_list := ["C1"; "C9"; "C3"] |}
    {| content_box := []; image_list := []; all_media := Some [] |} =
  ({| content_box := []; image_list := [];
      all_media := Some [("M2", "Apple")] |},
   inl (HandleError CitationK "C9")).
Proof.
  rewrite (process_citations_stops_at_unresolved Sample.db
             {| name_citation_list := ["C1"; "C9"; "C3"] |} ["C1"] ["C3"] "C9").
  - reflexivity.
  - reflexivity.
  - reflexivity.
Defined.

(** ** More on [main] *)

(** X9.  From any state, the only exception [main] raises is the
    [HandleError] of a handle that is not in the table of its kind; in
    particular [all_media] is never read before it is assigned, and
    showing the images never fails. *)
Theorem main_raises_only_missing_handles db a s e :
  snd (main db a s) = inl e ->
  exists k h, e = HandleError k h /\ unresolved db k h.
Proof.
  rewrite main_in_source_order, main_in_order_stages. cbv zeta.
  set (s1 := fst (clear_images s)).
  destruct a as [h|]; [|discriminate].
  destruct (h =? ""); [discriminate|].
  destruct (person_tbl db h) as [p|] eqn:Hp.
  - destruct (traversal_collects db p source_order (with_all_media s1 []) []
                eq_refl (dict_ok_nil db)) as (d & Hst & Hok & _ & Hres).
    destruct (for_ source_order (apply_rule db p) (with_all_media s1 []))
      as [s2 [e'|[]]]; simpl in Hst, Hok, Hres; subst s2.
    + intros He. inversion He; subst e'.
      destruct Hres as (k & h' & -> & r & _ & Hr).
      exists k, h'. split; trivial. eapply rule_dangling_unresolved. exact Hr.
    + destruct (add_images_shown db (list_sort snd d)
                  (with_all_media (with_all_media s1 []) d))
        as (imgs & Hrun & _).
      { intros en Hen. destruct en as [k dsc].
        apply (Permutation_in _ (list_sort_perm snd d)) in Hen.
        apply Hok in Hen. exact Hen. }
      simpl in Hrun. simpl. rewrite Hrun. discriminate.
  - simpl. intros He. inversion He. exists PersonK, h. auto.
Qed.

Lemma main_raises_only_missing_handles_witness :
  exists k h,
    HandleError FamilyK "F9" = HandleError k h /\ unresolved Sample.db k h.
Proof.
  apply (main_raises_only_missing_handles Sample.db (Some "I2") init).
  vm_compute. reflexivity.
Defined.

(** X10.  A run that does not return leaves the gallery empty: the images
    are added only after the whole traversal has gone through, so no part
    of a gallery is ever on display. *)
Theorem failed_run_shows_nothing db a s :
  gui_consistent s -> snd (main db a s) <> inr tt ->
  content_box (fst (main db a s)) = [] /\ image_list (fst (main db a s)) = [].
Proof.
  intros Hg.
  destruct (main_outcome db a s Hg)
    as [[-> _]|[(h & _ & _ & ->)|(h & p & Ha & Hp)]]; simpl; auto.
  destruct (main_resolved db a h p s Hg Ha Hp)
    as (d & _ & [(imgs & -> & _)|(k & h' & -> & _)]); simpl; auto.
  intros Hn. now elim Hn.
Qed.

Lemma failed_run_shows_nothing_witness :
  content_box (fst (main Sample.db (Some "I2")
                      (fst (main Sample.db (Some "I1") init)))) = [].
Proof.
  apply (failed_run_shows_nothing Sample.db (Some "I2")
           (fst (main Sample.db (Some "I1") init))).
  - vm_compute. reflexivity.
  - vm_compute. discriminate.
Defined.

Lemma run_all_app runs1 runs2 s :
  run_all (runs1 ++ runs2) s = run_all runs2 (run_all runs1 s).
Proof.
  revert s. induction runs1 as [|[db a] runs1 IH]; intros s; simpl; auto.
Qed.

Lemma run_all_consistent runs : forall s,
  gui_consistent s -> gui_consistent (run_all runs s).
Proof.
  induction runs as [|[db a] runs IH]; intros s Hg; simpl; trivial.
  apply IH. now apply main_keeps_consistent.
Qed.

(** X11.  Whatever runs a gramplet has been through since [init], on
    whatever databases and for whatever persons, returning or not, its box
    holds exactly the images of [image_list], and the next run ends and
    shows what a first run on a new gramplet would. *)
Theorem gallery_follows_last_run runs db a :
  gui_consistent (run_all runs init) /\
  snd (main db a (run_all runs init)) = snd (main db a init) /\
  displayed (run_all (runs ++ [(db, a)]) init) = displayed (fst (main db a init)).
Proof.
  assert (Hg : gui_consistent (run_all runs init))
    by (apply run_all_consistent, init_consistent).
  split; [exact Hg|].
  destruct (main_forgets db a (run_all runs init) init Hg init_consistent)
    as (Hr & Hc & _).
  split; [exact Hr|].
  rewrite run_all_app. simpl. unfold displayed. now rewrite Hc.
Qed.

Lemma Forall2_In_l {A B} (R : A -> B -> Prop) l l' x :
  Forall2 R l l' -> In x l -> exists y, In y l' /\ R x y.
Proof.
  induction 1 as [|a b l l' Hab _ IH]; intros [].
  - subst. exists b. split; [now left|trivial].
  - destruct IH as (y & Hy & HR); trivial. exists y. split; [now right|trivial].
Qed.

Lemma Forall2_In_r {A B} (R : A -> B -> Prop) l l' y :
  Forall2 R l l' -> In y l' -> exists x, In x l /\ R x y.
Proof.
  induction 1 as [|a b l l' Hab _ IH]; intros [].
  - subst. exists a. split; [now left|trivial].
  - destruct IH as (x & Hx & HR); trivial. exists x. split; [now right|trivial].
Qed.

(** X12.  After a run that returned for a person in the database, the
    gallery holds the image of every media object reachable from the
    person, and no other image; there are as many images as keys in the
    dict. *)
Theorem gallery_shows_each_source db a h p s s' :
  gui_consistent s -> present a h -> person_tbl db h = Some p ->
  main db a s = (s', inr tt) ->
  (forall k, collected_sources db p k ->
     exists m, media_tbl db k = Some m /\ In (new_ImageBox m) (content_box s')) /\
  (forall img, In img (content_box s') ->
     exists k m, collected_sources db p k /\ media_tbl db k = Some m /\
                 img = new_ImageBox m) /\
  (exists d, all_media s' = Some d /\
             List.length (content_box s') = List.length d).
Proof.
  intros Hg Ha Hp Hrun.
  destruct (main_success db a h p s s' Hg Ha Hp Hrun)
    as (d & Hok & Hs' & Hall & _ & Hin).
  assert (Hperm : Permutation (list_sort snd d) d) by apply list_sort_perm.
  split; [|split].
  - intros k Hk. apply Hin in Hk. apply in_map_iff in Hk.
    destruct Hk as ([k' dsc] & Hk' & He). simpl in Hk'. subst k'.
    apply (Permutation_in _ (Permutation_sym Hperm)) in He.
    destruct (Forall2_In_l _ _ _ _ Hall He) as (img & Himg & m & Hm & -> & _).
    exists m. auto.
  - intros img Himg.
    destruct (Forall2_In_r _ _ _ _ Hall Himg) as ([k dsc] & He & m & Hm & -> & _).
    exists k, m. split; [|auto]. apply Hin.
    apply (Permutation_in _ Hperm) in He.
    apply in_map_iff. exists (k, dsc). auto.
  - exists d. split; [rewrite Hs'; reflexivity|].
    rewrite <- (Forall2_length Hall). now apply Permutation_length.
Qed.

Lemma gallery_shows_each_source_witness :
  exists m,
    media_tbl Sample.db "M4" = Some m /\
    In (new_ImageBox m)
       (content_box (fst (main Sample.db (Some "I1") init))).
Proof.
  destruct (gallery_shows_each_source Sample.db (Some "I1") "I1"
              Sample.person_I1 init (fst (main Sample.db (Some "I1") init)))
    as (Hall & _).
  - reflexivity.
  - split; [reflexivity|discriminate].
  - reflexivity.
  - vm_compute. reflexivity.
  - apply Hall. do 5 right. exists "F1". eexists. split; [now left|].
    split; [reflexivity|]. left. right. now left.
Defined.

(** ** Media that are out of reach *)

Lemma process_media_ext {T} `{MediaBase T} db db' (gobj : T) :
  (forall h, direct_media gobj h -> media_tbl db h = media_tbl db' h) ->
  forall s, process_media db gobj s = process_media db' gobj s.
Proof.
  intros Hm. unfold process_media. apply for_ext. intros mr Hmr s.
  cbv zeta. unfold bind, get_media_from_handle, lookup.
  rewrite (Hm (get_reference_handle mr)); [reflexivity|].
  unfold direct_media, media_handles. now apply in_map.
Qed.

Lemma bind_ext_run {A B} (c c' : M A) (k k' : A -> M B) s :
  c s = c' s -> (forall a s', c' s = (s', inr a) -> k a s' = k' a s') ->
  bind c k s = bind c' k' s.
Proof.
  intros Hc Hk. unfold bind. rewrite Hc.
  destruct (c' s) as [s1 [e|a]]; [reflexivity|now apply Hk].
Qed.

Lemma lookup_run {A} kind (tbl : handle -> option A) h s s' x :
  lookup kind tbl h s = (s', inr x) -> tbl h = Some x.
Proof.
  unfold lookup. destruct (tbl h); simpl; intros E; inversion E; trivial.
Qed.

Lemma process_citations_ext {T} `{CitationBase T} db db' (gobj : T) :
  (forall h, citation_tbl db h = citation_tbl db' h) ->
  (forall h, cited_media db gobj h -> media_tbl db h = media_tbl db' h) ->
  forall s, process_citations db gobj s = process_citations db' gobj s.
Proof.
  intros Hc Hm. unfold process_citations. apply for_ext. intros ch Hch s.
  apply bind_ext_run.
  - unfold get_citation_from_handle, lookup. now rewrite Hc.
  - intros cit s' Hrun. apply lookup_run in Hrun. rewrite <- Hc in Hrun.
    apply process_media_ext. intros h Hh. apply Hm. exists ch, cit. auto.
Qed.

Lemma process_events_ext {T} `{EventRefBase T} db db' (gobj : T) :
  (forall h, event_tbl db h = event_tbl db' h) ->
  (forall h, citation_tbl db h = citation_tbl db' h) ->
  (forall h, event_cited_media db gobj h -> media_tbl db h = media_tbl db' h) ->
  forall s, process_events db gobj s = process_events db' gobj s.
Proof.
  intros He Hc Hm. unfold process_events. apply for_ext. intros er Her s.
  cbv zeta. apply bind_ext_run.
  - unfold get_event_from_handle, lookup. now rewrite He.
  - intros ev s' Hrun. apply lookup_run in Hrun. rewrite <- He in Hrun.
    apply process_citations_ext; trivial.
    intros h Hh. apply Hm. exists er, ev. auto.
Qed.

Lemma apply_rule_ext db db' p r :
  same_up_to_media (rule_sources db p r) db db' ->
  forall s, apply_rule db p r s = apply_rule db' p r s.
Proof.
  intros (_ & Hf & He & Hc & Hm).
  destruct r; cbn [apply_rule rule_sources] in *.
  - now apply process_media_ext.
  - now apply process_citations_ext.
  - now apply process_citations_ext.
  - apply for_ext. intros name Hn. apply process_citations_ext; trivial.
    intros h Hh. apply Hm. eauto.
  - now apply process_events_ext.
  - apply for_ext. intros fh Hfh s. apply bind_ext_run.
    + unfold get_family_from_handle, lookup. now rewrite Hf.
    + intros fam s' Hrun. apply lookup_run in Hrun. rewrite <- Hf in Hrun.
      apply bind_ext.
      * apply process_media_ext. intros h Hh. apply Hm.
        exists fh, fam. auto.
      * intros _ s''. apply process_events_ext; trivial.
        intros h Hh. apply Hm. exists fh, fam. auto.
Qed.

Lemma add_image_ext db db' k :
  media_tbl db k = media_tbl db' k ->
  forall s, add_image db k s = add_image db' k s.
Proof.
  intros Hk s. unfold add_image, bind, get_media_from_handle, lookup.
  now rewrite Hk.
Qed.

(** X13.  A run depends on the media table only at the handles reachable
    from the active person: on two databases with the same persons,
    families, events and citations, whose media tables agree on
    [collected_sources], [main] ends in the same state with the same
    outcome, whatever else their media tables hold. *)
Theorem main_ignores_unreachable_media db db' a h p s :
  present a h -> person_tbl db h = Some p ->
  same_up_to_media (collected_sources db p) db db' ->
  main db a s = main db' a s.
Proof.
  intros [-> Hne] Hp Hsame. pose proof Hsame as (Hpt & _ & _ & _ & Hm).
  rewrite !main_in_source_order, !main_in_order_stages. cbv zeta.
  set (s1 := fst (clear_images s)).
  apply String.eqb_neq in Hne. rewrite Hne, <- Hpt, Hp.
  rewrite <- (for_ext source_order (apply_rule db p) (apply_rule db' p)).
  2:{ intros r Hr. apply apply_rule_ext.
      destruct Hsame as (H1 & H2 & H3 & H4 & H5). repeat (split; trivial).
      intros k Hk. apply H5. apply collected_sources_rules. eauto. }
  destruct (traversal_collects db p source_order (with_all_media s1 []) []
              eq_refl (dict_ok_nil db)) as (d & Hst & _ & Hsrc & _).
  destruct (for_ source_order (apply_rule db p) (with_all_media s1 []))
    as [s2 [e|[]]]; [reflexivity|].
  simpl in Hst, Hsrc. subst s2. simpl.
  rewrite <- (for_ext (list_sort snd d)
                (fun media => add_image db (fst media))
                (fun media => add_image db' (fst media))); [reflexivity|].
  intros [k dsc] Hin. apply add_image_ext. apply Hm.
  apply collected_sources_rules. apply Hsrc.
  apply (Permutation_in _ (list_sort_perm snd d)) in Hin.
  apply in_map_iff. exists (k, dsc). auto.
Qed.

Lemma main_ignores_unreachable_media_witness :
  main Sample.db (Some "I3") init =
  main (mkDb (person_tbl Sample.db) (family_tbl Sample.db)
          (event_tbl Sample.db) (citation_tbl Sample.db) (fun _ => None))
    (Some "I3") init.
Proof.
  apply (main_ignores_unreachable_media Sample.db _ (Some "I3") "I3"
           Sample.person_I3 init).
  - split; [reflexivity|discriminate].
  - reflexivity.
  - repeat split.
    intros k [[]|[(ch & cit & [] & _)|[(ch & cit & [] & _)|[(n & [] & _)|
                [(er & ev & [] & _)|(fh & fam & [] & _)]]]]].
Defined.

(** ** The image widget *)

Section Photo.
Variable tk : Toolkit.

Lemma hover_snoc evs ev (st : list Effect * DeepPhoto tk) :
  hover (evs ++ [ev]) st = hover_step (hover evs st) ev.
Proof. unfold hover. now rewrite fold_left_app. Qed.

Lemma hover_app evs1 evs2 (st : list Effect * DeepPhoto tk) :
  hover (evs1 ++ evs2) st = hover evs2 (hover evs1 st).
Proof. unfold hover. now rewrite fold_left_app. Qed.

(** what no event changes *)
Lemma hover_step_fixed (st : list Effect * DeepPhoto tk) ev :
  normal_pixbuf (snd (hover_step st ev)) = normal_pixbuf (snd st) /\
  full_path (snd (hover_step st ev)) = full_path (snd st) /\
  mime_type (snd (hover_step st ev)) = mime_type (snd st) /\
  photo_media (snd (hover_step st ev)) = photo_media (snd st) /\
  photo_handle (snd (hover_step st ev)) = photo_handle (snd st).
Proof.
  destruct st as [log self], ev; simpl; auto.
  destruct (large_pixbuf self); simpl; auto.
Qed.

Lemma hover_fixed evs : forall (st : list Effect * DeepPhoto tk),
  normal_pixbuf (snd (hover evs st)) = normal_pixbuf (snd st) /\
  full_path (snd (hover evs st)) = full_path (snd st) /\
  mime_type (snd (hover evs st)) = mime_type (snd st) /\
  photo_media (snd (hover evs st)) = photo_media (snd st) /\
  photo_handle (snd (hover evs st)) = photo_handle (snd st).
Proof.
  induction evs as [|ev evs IH]; intros st; [simpl; auto|].
  change (hover (ev :: evs) st) with (hover evs (hover_step st ev)).
  destruct (IH (hover_step st ev)) as (H1 & H2 & H3 & H4 & H5).
  destruct (hover_step_fixed st ev) as (G1 & G2 & G3 & G4 & G5).
  repeat split; congruence.
Qed.

(** X14.  When the pointer leaves, the image shows the thumbnail it was
    built with, whatever entering and leaving went before; leaving asks
    the host for nothing. *)
Theorem leave_restores_normal_thumbnail evs (st : list Effect * DeepPhoto tk) :
  photo (snd (hover (evs ++ [Leave]) st)) = Some (normal_pixbuf (snd st)) /\
  fst (hover (evs ++ [Leave]) st) = fst (hover evs st).
Proof.
  rewrite hover_snoc. destruct (hover_fixed evs st) as (H1 & _).
  destruct (hover evs st) as [log self]. simpl in *. now rewrite H1.
Qed.

Lemma large_pixbuf_kept evs : forall (st : list Effect * DeepPhoto tk) p,
  large_pixbuf (snd st) = Some p ->
  large_pixbuf (snd (hover evs st)) = Some p /\
  fst (hover evs st) = fst st.
Proof.
  induction evs as [|ev evs IH]; intros st p Hp; [simpl; auto|].
  change (hover (ev :: evs) st) with (hover evs (hover_step st ev)).
  assert (Hs : large_pixbuf (snd (hover_step st ev)) = Some p /\
               fst (hover_step st ev) = fst st).
  { destruct st as [log self], ev; simpl in *; [rewrite Hp|]; simpl; auto. }
  destruct Hs as [Hs1 Hs2]. destruct (IH _ p Hs1) as [H1 H2].
  split; congruence.
Qed.

Lemma enter_notify_large (st : list Effect * DeepPhoto tk) :
  exists p, large_pixbuf (snd (enter_notify st)) = Some p /\
            photo (snd (enter_notify st)) = Some p.
Proof.
  destruct st as [log self]. simpl.
  destruct (large_pixbuf self) as [p|] eqn:E; simpl.
  - exists p. auto.
  - eexists. split; reflexivity.
Qed.

Lemma enter_notify_log (st : list Effect * DeepPhoto tk) :
  fst (enter_notify st) =
  fst st ++
  match large_pixbuf (snd st) with
  | None => [thumbnail_request (full_path (snd st)) (mime_type (snd st))
               SIZE_LARGE]
  | Some _ => []
  end.
Proof.
  destruct st as [log self]. simpl.
  destruct (large_pixbuf self); simpl; [now rewrite app_nil_r|reflexivity].
Qed.

(** X15.  The large thumbnail is asked for at most once in the life of an
    image: a series of enter and leave events adds at most one request to
    what the host was asked, for the large thumbnail of the image's file,
    and none when a large thumbnail is already kept. *)
Theorem large_thumbnail_requested_once evs (st : list Effect * DeepPhoto tk) :
  exists extra,
    fst (hover evs st) = fst st ++ extra /\
    (List.length extra <= 1)%nat /\
    (forall e, In e extra ->
       e = thumbnail_request (full_path (snd st)) (mime_type (snd st)) SIZE_LARGE) /\
    (large_pixbuf (snd st) <> None -> extra = []).
Proof.
  revert st. induction evs as [|ev evs IH]; intros st.
  - exists []. simpl. rewrite app_nil_r. repeat split; auto. intros e [].
  - change (hover (ev :: evs) st) with (hover evs (hover_step st ev)).
    destruct ev; cbn [hover_step].
    + destruct (enter_notify_large st) as (p & Hl & _).
      destruct (large_pixbuf_kept evs _ p Hl) as [_ Hlog].
      rewrite Hlog, enter_notify_log.
      eexists. split; [reflexivity|].
      destruct (large_pixbuf (snd st)); simpl; repeat split; auto.
      * intros e [].
      * intros e [<-|[]]. reflexivity.
      * intros Hn. now elim Hn.
    + destruct (IH (leave_notify st)) as (extra & H1 & H2 & H3 & H4).
      exists extra. destruct st as [log self]. simpl in *. auto.
Qed.

(** X16.  Every time the pointer enters, the image shows the same large
    thumbnail: the one obtained at the first entry. *)
Theorem enter_shows_first_large_thumbnail evs1 evs2
    (st : list Effect * DeepPhoto tk) :
  photo (snd (hover (evs1 ++ Enter :: evs2 ++ [Enter]) st)) =
    photo (snd (hover (evs1 ++ [Enter]) st)) /\
  photo (snd (hover (evs1 ++ [Enter]) st)) <> None.
Proof.
  rewrite hover_snoc.
  replace (evs1 ++ Enter :: evs2 ++ [Enter])
    with ((evs1 ++ [Enter]) ++ evs2 ++ [Enter])
    by (now rewrite <- app_assoc).
  rewrite hover_app, hover_snoc, hover_snoc.
  cbn [hover_step].
  destruct (enter_notify_large (hover evs1 st)) as (p & Hl & Hp).
  destruct (large_pixbuf_kept evs2 _ p Hl) as [Hl2 _].
  rewrite Hp. split; [|discriminate].
  destruct (hover evs2 (enter_notify (hover evs1 st))) as [log self].
  simpl in *. rewrite Hl2. simpl. exact Hl2.
Qed.

End Photo.

(** X18.  On an image of the gallery, a context-menu click pops up a menu
    whose "Make Active Media" entry selects a handle that was collected for
    the person, the handle the image stands for, and whose "Edit" entry
    opens the media object the database holds under that handle. *)
Theorem gallery_menu_targets_collected_media tk db a h p s s' img ev log0 log :
  gui_consistent s -> present a h -> person_tbl db h = Some p ->
  handles_consistent db ->
  main db a s = (s', inr tt) ->
  In img (content_box s') ->
  get_handle (image_media img) <> "" ->
  is_right_click tk ev = true ->
  EventType_eqb (event_type ev) DOUBLE_BUTTON_PRESS
    && (event_button ev =? 1)%nat = false ->
  exists k menu,
    collected_sources db p k /\
    media_tbl db k = Some (image_media img) /\
    _handle_button_press
      (snd (ImageBox_photo tk db (Some the_uistate) img log0)) ev log =
    (log ++ [menu_popup menu (event_button ev) (event_time ev)], true) /\
    In (MenuItem MSG_MAKE_ACTIVE_MEDIA (set_active k "Media")) menu /\
    In (MenuItem MSG_EDIT (EditMedia (image_media img))) menu.
Proof.
  intros Hg Ha Hp Hc Hrun Himg Hne Hright Hdouble.
  destruct (main_success db a h p s s' Hg Ha Hp Hrun)
    as (d & Hok & _ & Hall & _ & Hin).
  destruct (Forall2_In_r _ _ _ _ Hall Himg) as ([k dsc] & He & m & Hm & -> & _).
  simpl in Hm. exists k. eexists. split; [|split; [exact Hm|]].
  - apply Hin. apply (Permutation_in _ (list_sort_perm snd d)) in He.
    apply in_map_iff. exists (k, dsc). auto.
  - unfold _handle_button_press. rewrite Hdouble, Hright.
    assert (Hh : handle_and_uistate
                   (snd (ImageBox_photo tk db (Some the_uistate)
                           (new_ImageBox m) log0)) = true).
    { unfold handle_and_uistate. cbn. apply String.eqb_neq in Hne.
      cbn in Hne. rewrite Hne. reflexivity. }
    rewrite Hh. split; [reflexivity|].
    rewrite <- (Hc k m Hm). cbn. auto 10.
Qed.

Lemma gallery_menu_targets_collected_media_witness :
  exists k menu,
    collected_sources Sample.db Sample.person_I1 k /\
    media_tbl Sample.db k = Some (Sample.media "M3" "Mango") /\
    In (MenuItem MSG_MAKE_ACTIVE_MEDIA (set_active k "Media")) menu.
Proof.
  destruct (gallery_menu_targets_collected_media SampleToolkit.tk Sample.db
              (Some "I1") "I1" Sample.person_I1 init
              (fst (main Sample.db (Some "I1") init))
              (new_ImageBox (Sample.media "M3" "Mango"))
              SampleToolkit.right_click [] [])
    as (k & menu & H1 & H2 & _ & H3 & _).
  - reflexivity.
  - split; [reflexivity|discriminate].
  - reflexivity.
  - intros k m. simpl.
    destruct (k =? "M1") eqn:E1; [apply String.eqb_eq in E1;
      intros E; inversion E; now subst|].
    destruct (k =? "M2") eqn:E2; [apply String.eqb_eq in E2;
      intros E; inversion E; now subst|].
    destruct (k =? "M3") eqn:E3; [apply String.eqb_eq in E3;
      intros E; inversion E; now subst|].
    destruct (k =? "M4") eqn:E4; [apply String.eqb_eq in E4;
      intros E; inversion E; now subst|].
    discriminate.
  - vm_compute. reflexivity.
  - vm_compute. auto.
  - discriminate.
  - reflexivity.
  - reflexivity.
  - exists k, menu. auto.
Defined.

(** ** The order of discovery *)

Lemma dict_contains_keys h d :
  dict_contains h d = existsb (fun k => k =? h) (keys d).
Proof.
  unfold dict_contains, keys. induction d as [|e d IH]; simpl; trivial.
  now rewrite IH.
Qed.

Lemma first_new_app l1 : forall seen l2,
  first_new seen (l1 ++ l2) =
  first_new seen l1 ++ first_new (seen ++ first_new seen l1) l2.
Proof.
  induction l1 as [|h l1 IH]; intros seen l2; simpl.
  - now rewrite app_nil_r.
  - destruct (existsb (fun k => k =? h) seen).
    + apply IH.
    + rewrite IH. simpl. now rewrite <- app_assoc.
Qed.

Lemma gathers_ret : gathers (ret tt) [].
Proof.
  intros s d s1 Ha Hr. inversion Hr; subst s1. exists d.
  simpl. now rewrite app_nil_r.
Qed.

Lemma gathers_seq c1 c2 hs1 hs2 :
  gathers c1 hs1 -> gathers c2 hs2 -> gathers (c1 ;; c2) (hs1 ++ hs2).
Proof.
  intros H1 H2 s d s2 Ha. unfold bind.
  destruct (c1 s) as [s1 [e|[]]] eqn:E1; [discriminate|]. intros E2.
  destruct (H1 s d s1 Ha E1) as (d1 & Ha1 & Hk1).
  destruct (H2 s1 d1 s2 Ha1 E2) as (d2 & Ha2 & Hk2).
  exists d2. split; trivial.
  rewrite Hk2, Hk1, first_new_app, app_assoc. reflexivity.
Qed.

Lemma gathers_for {A} (xs : list A) (body : A -> M unit) (f : A -> list handle) :
  (forall x, gathers (body x) (f x)) ->
  gathers (for_ xs body) (flat_map f xs).
Proof.
  intros H. induction xs as [|x xs IH]; simpl.
  - apply gathers_ret.
  - apply gathers_seq; auto.
Qed.

Lemma gathers_lookup {A} kind (tbl : handle -> option A) h
    (body : A -> M unit) (f : A -> list handle) :
  (forall x, gathers (body x) (f x)) ->
  gathers (x <- lookup kind tbl h ;; body x)
    (match tbl h with Some x => f x | None => [] end).
Proof.
  intros H s d s1 Ha. unfold bind, lookup.
  destruct (tbl h) as [x|]; simpl; [|discriminate].
  apply H. exact Ha.
Qed.

Lemma gathers_media_ref db (h : handle) :
  gathers
    (d <- get_all_media ;;
     if negb (dict_contains h d) then
       media <- get_media_from_handle db h ;;
       d <- get_all_media ;;
       set_all_media (dict_setitem h (get_description media) d)
     else ret tt)
    [h].
Proof.
  intros s d s1 Ha. unfold bind, get_all_media. rewrite Ha.
  simpl first_new. rewrite <- dict_contains_keys.
  destruct (dict_contains h d) eqn:E; simpl.
  - intros Hr. inversion Hr; subst s1. exists d. now rewrite app_nil_r.
  - apply dict_contains_false in E. unfold get_media_from_handle, lookup.
    destruct (media_tbl db h) as [m|]; simpl; [|discriminate].
    rewrite Ha. simpl. rewrite dict_setitem_fresh by exact E.
    intros Hr. inversion Hr; subst s1. simpl.
    exists (d ++ [(h, get_description m)]). split; trivial.
    now rewrite keys_app.
Qed.

Lemma flat_map_singleton {A B} (f : A -> B) (l : list A) :
  flat_map (fun x => [f x]) l = map f l.
Proof. induction l; simpl; congruence. Qed.

Lemma process_media_gathers {T} `{MediaBase T} db (gobj : T) :
  gathers (process_media db gobj) (media_handles gobj).
Proof.
  unfold process_media, media_handles. rewrite <- flat_map_singleton.
  apply gathers_for. intros mr. apply gathers_media_ref.
Qed.

Lemma process_citations_gathers {T} `{CitationBase T} db (gobj : T) :
  gathers (process_citations db gobj)
    (citations_media db (get_citation_list gobj)).
Proof.
  unfold process_citations, citations_media. apply gathers_for. intros ch.
  apply (gathers_lookup CitationK (citation_tbl db) ch
           (fun cit => process_media db cit) (fun cit => media_handles cit)).
  intros cit. apply process_media_gathers.
Qed.

Lemma process_events_gathers {T} `{EventRefBase T} db (gobj : T) :
  gathers (process_events db gobj)
    (events_media db (get_event_ref_list gobj)).
Proof.
  unfold process_events, events_media. apply gathers_for. intros er.
  apply (gathers_lookup EventK (event_tbl db) (get_reference_handle er)
           (fun ev => process_citations db ev)
           (fun ev => citations_media db (get_citation_list ev))).
  intros ev. apply process_citations_gathers.
Qed.

Lemma apply_rule_gathers db p r :
  gathers (apply_rule db p r) (rule_handles db p r).
Proof.
  destruct r; cbn [apply_rule rule_handles].
  - apply process_media_gathers.
  - apply process_citations_gathers.
  - apply process_citations_gathers.
  - apply gathers_for. intros name. apply process_citations_gathers.
  - apply process_events_gathers.
  - unfold families_media. apply gathers_for. intros fh.
    apply (gathers_lookup FamilyK (family_tbl db) fh
             (fun fam => process_media db fam ;; process_events db fam)
             (fun fam => media_handles fam ++
                         events_media db (get_event_ref_list fam))).
    intros fam. apply gathers_seq;
      [apply process_media_gathers|apply process_events_gathers].
Qed.

(** X19.  When [process_media] returns, the keys of the dict are the keys
    it had, followed by the handles of the object's media references that
    were not among them, each once, in the order in which they first occur
    in the media list. *)
Theorem process_media_appends_in_order {T} `{MediaBase T} db (gobj : T) s d s1 :
  all_media s = Some d ->
  process_media db gobj s = (s1, inr tt) ->
  exists d1,
    all_media s1 = Some d1 /\
    keys d1 = keys d ++ first_new (keys d) (media_handles gobj).
Proof. apply process_media_gathers. Qed.

Lemma process_media_appends_in_order_witness :
  let fam := {| family_media_list :=
                  [Sample.mref "M4"; Sample.mref "M1"; Sample.mref "M4";
                   Sample.mref "M3"];
                family_event_ref_list := [] |} in
  let s := {| content_box := []; image_list := [];
              all_media := Some [("M1", "Zebra")] |} in
  exists d1,
    all_media (fst (process_media Sample.db fam s)) = Some d1 /\
    keys d1 = ["M1"; "M4"; "M3"].
Proof.
  intros fam s.
  destruct (process_media_appends_in_order Sample.db fam s [("M1", "Zebra")]
              (fst (process_media Sample.db fam s))) as (d1 & H1 & H2).
  - reflexivity.
  - vm_compute. reflexivity.
  - exists d1. split; [exact H1|]. rewrite H2. reflexivity.
Defined.

Lemma described_dict db d :
  described_by_db db d -> d = map (fun h => (h, description_of db h)) (keys d).
Proof.
  intros Hd. induction d as [|[k dsc] d IH]; simpl; trivial.
  rewrite <- IH by (intros h x Hin; apply Hd; now right).
  destruct (Hd k dsc (or_introl eq_refl)) as (m & Hm & <-).
  unfold description_of. now rewrite Hm.
Qed.

(** X20.  The gallery is a function of the database and the person: when
    [main] returns for a person in the database, the dict lists the media
    handles of the traversal in order of first occurrence, each with the
    description the database gives it, and the images stand for
    [gallery db p], the list of these pairs sorted by description. *)
Theorem main_shows_gallery db a h p s s' :
  gui_consistent s -> present a h -> person_tbl db h = Some p ->
  main db a s = (s', inr tt) ->
  all_media s' =
    Some (map (fun k => (k, description_of db k))
            (first_new [] (traversal_handles db p))) /\
  Forall2 (shows db) (gallery db p) (content_box s') /\
  (handles_consistent db -> displayed s' = gallery db p).
Proof.
  intros Hg Ha Hp Hrun.
  destruct (main_success db a h p s s' Hg Ha Hp Hrun)
    as (d & Hok & Hs' & Hall & _).
  assert (Hkeys : keys d = first_new [] (traversal_handles db p)).
  { pose proof Hrun as Hrun'. destruct Ha as [-> Hne].
    rewrite main_in_source_order, main_in_order_stages in Hrun'.
    cbv zeta in Hrun'. apply String.eqb_neq in Hne.
    rewrite Hne, Hp in Hrun'.
    destruct (for_ source_order (apply_rule db p)
                (with_all_media (fst (clear_images s)) []))
      as [s2 [e|[]]] eqn:E; [discriminate|].
    destruct (gathers_for source_order (apply_rule db p) (rule_handles db p)
                (apply_rule_gathers db p)
                (with_all_media (fst (clear_images s)) []) [] s2 eq_refl E)
      as (d2 & Ha2 & Hk2).
    rewrite Ha2 in Hrun'.
    destruct (add_images_shown db (list_sort snd d2) s2) as (imgs & Hr & _).
    { intros en Hen. destruct en as [k dsc].
      destruct (traversal_collects db p source_order
                  (with_all_media (fst (clear_images s)) []) []
                  eq_refl (dict_ok_nil db)) as (ext & Hst & Hok2 & _).
      rewrite E in Hst. simpl in Hst. subst s2. simpl in Ha2.
      inversion Ha2; subst d2.
      apply (Permutation_in _ (list_sort_perm snd ext)) in Hen.
      apply Hok2 in Hen. exact Hen. }
    rewrite Hr in Hrun'.
    assert (Hd2 : all_media s' = Some d2).
    { inversion Hrun' as [Hs2]. simpl. exact Ha2. }
    rewrite Hs' in Hd2. simpl in Hd2. inversion Hd2. subst d2. exact Hk2. }
  assert (Hd : d = map (fun k => (k, description_of db k))
                     (first_new [] (traversal_handles db p))).
  { rewrite <- Hkeys. apply described_dict. apply Hok. }
  unfold gallery. rewrite <- Hd. split; [rewrite Hs'; reflexivity|].
  split; [exact Hall|].
  intros Hc. unfold displayed. now apply (shows_displayed db).
Qed.

Lemma main_shows_gallery_witness :
  displayed (fst (main Sample.db (Some "I1") init)) =
    gallery Sample.db Sample.person_I1 /\
  gallery Sample.db Sample.person_I1 =
    [("M2", "Apple"); ("M4", "Apple"); ("M3", "Mango"); ("M1", "Zebra")].
Proof.
  destruct (main_shows_gallery Sample.db (Some "I1") "I1" Sample.person_I1
              init (fst (main Sample.db (Some "I1") init))) as (_ & _ & Hd).
  - reflexivity.
  - split; [reflexivity|discriminate].
  - reflexivity.
  - vm_compute. reflexivity.
  - split; [|vm_compute; reflexivity].
    apply Hd. intros k m. simpl.
    destruct (k =? "M1") eqn:E1; [apply String.eqb_eq in E1;
      intros E; inversion E; now subst|].
    destruct (k =? "M2") eqn:E2; [apply String.eqb_eq in E2;
      intros E; inversion E; now subst|].
    destruct (k =? "M3") eqn:E3; [apply String.eqb_eq in E3;
      intros E; inversion E; now subst|].
    destruct (k =? "M4") eqn:E4; [apply String.eqb_eq in E4;
      intros E; inversion E; now subst|].
    discriminate.
Defined.
